(** * Conservative-portfolio dashboard: the allocation helpers of [xyz.py]

    The script keeps one pandas [DataFrame] of five fixed-income assets and
    offers three helpers on its ["Allocation (%)"] column
    ([sum_allocations], [is_allocation_ok], [normalize_allocations]), a CSV
    export ([df_to_csv_bytes]), a preset selector and, under the table of
    number inputs, the buttons "Normalize" and "Save changes" ([actions]);
    [page] is one pass of the script, from the session's frame to the line
    that persists the view.

    The embedding follows the script:
    - numbers are kept behind an interface [Numeric] with two instances:
      [binary64] (IEEE-754 doubles, what Python and numpy compute with) and
      [exact] (the rationals, the reading under which statements about
      "real" weights are made).  The functions are written once, over the
      interface; what is proved for all weights is proved in exact
      arithmetic or for every instance, and the examples are run in both;
    - a [DataFrame] is an ordered list of named columns, it lives in a store
      of objects addressed by references, so that [df.copy()] and
      [df[col] = ...] have their aliasing behaviour;
    - Python exceptions are the left summand of the result of a
      state-and-exception monad;
    - a [str] is kept as the bytes of its UTF-8 encoding.

    pandas, numpy and the csv module are not part of the repository: the
    operations the script calls are written down here from their documented
    behaviour (section "The pandas operations the script calls" and "CSV
    export"), and the two functions that cannot be, the reading of a string
    as a number and the printing of a float, are parameters. *)

From Stdlib Require Import QArith Qround Qabs ZArith Ascii List Lia Lqa.
From Stdlib Require Import Floats.PrimFloat Numbers.Cyclic.Int63.Uint63.
From stdpp Require Import base list strings pretty.

(** ** Numbers *)

(** What the helpers need from Python floats and numpy.  Comparisons are
    boolean, as in the source; [isnan] tells the missing value that [fillna]
    and the skipping reductions look for. *)
Class Numeric (F : Type) := {
  zero : F;                         (* 0, 0.0 *)
  hundred : F;                      (* 100.0 *)
  tol9 : F;                         (* 1e-9 *)
  tol6 : F;                         (* 1e-6 *)
  add : F → F → F;
  sub : F → F → F;
  mul : F → F → F;
  div : F → F → F;
  fabs : F → F;
  rint : F → F;                     (* numpy.rint: nearest integer, ties to even *)
  of_nat : nat → F;                 (* int -> float *)
  feqb : F → F → bool;              (* == *)
  fltb : F → F → bool;              (* < *)
  fleb : F → F → bool;              (* <= *)
  isnan : F → bool;
}.

(** *** Exact arithmetic

    Rationals, every result brought to lowest terms (the value is the one of
    the plain operation, [Qred_correct]); rounding to an integer is to the
    nearest one, a tie going to the even neighbour. *)

Definition Q_rint (q : Q) : Q :=
  let f := Qfloor q in
  let d := (q - inject_Z f)%Q in
  if Qle_bool d (1 # 2) then
    if Qle_bool (1 # 2) d then
      (if Z.even f then inject_Z f else inject_Z (f + 1))
    else inject_Z f
  else inject_Z (f + 1).

Definition Q_ltb (x y : Q) : bool := negb (Qle_bool y x).

#[global] Instance exact : Numeric Q := {|
  zero := 0%Q;
  hundred := 100%Q;
  tol9 := (1 # 1000000000)%Q;
  tol6 := (1 # 1000000)%Q;
  add := fun x y => Qred (x + y);
  sub := fun x y => Qred (x - y);
  mul := fun x y => Qred (x * y);
  div := fun x y => Qred (x / y);
  fabs := Qabs;
  rint := Q_rint;
  of_nat := fun n => inject_Z (Z.of_nat n);
  feqb := Qeq_bool;
  fltb := Q_ltb;
  fleb := Qle_bool;
  isnan := fun _ => false;
|}.

(** *** IEEE-754 binary64

    The operations are those of the processor.  A sum is taken from left to
    right ([Series_sum]); numpy groups the additions of a long sum
    differently, so the last bits of a binary64 sum may differ from numpy's.
    Nothing stated below about binary64 depends on that order. *)

Definition two52 : float := 4503599627370496%float.

(** Round to the nearest integer, ties to even, in the current (nearest-even)
    rounding mode: below 2^52 adding and removing 2^52 leaves the nearest
    integer; from 2^52 on every double is an integer. *)
Definition f_rint (x : float) : float :=
  let a := PrimFloat.abs x in
  if PrimFloat.ltb a two52 then
    let r := PrimFloat.sub (PrimFloat.add a two52) two52 in
    if PrimFloat.ltb x 0%float then PrimFloat.opp r else r
  else x.

#[global] Instance binary64 : Numeric float := {|
  zero := 0%float;
  hundred := 100%float;
  tol9 := PrimFloat.div 1%float 1000000000%float;
  tol6 := PrimFloat.div 1%float 1000000%float;
  add := PrimFloat.add;
  sub := PrimFloat.sub;
  mul := PrimFloat.mul;
  div := PrimFloat.div;
  fabs := PrimFloat.abs;
  rint := f_rint;
  of_nat := fun n => PrimFloat.of_uint63 (Uint63.of_Z (Z.of_nat n));
  feqb := PrimFloat.eqb;
  fltb := PrimFloat.ltb;
  fleb := PrimFloat.leb;
  isnan := PrimFloat.is_nan;
|}.

(** ** Objects, exceptions and the store *)

Inductive exn : Type :=
  | KeyError
  | ZeroDivisionError
  | ValueError
  | IndexError
  | DanglingReference.

(** A cell of a column: a number, a string, or [None]. *)
Inductive cell (F : Type) : Type :=
  | CNum (x : F)
  | CStr (s : string)
  | CNone.
Arguments CNum {F} x.
Arguments CStr {F} s.
Arguments CNone {F}.

(** A frame is its columns in order; rows carry the default integer index
    0, 1, ..., as every frame of the script does. *)
Definition DataFrame (F : Type) : Type := list (string * list (cell F)).

(** References are positions in the store of frames. *)
Abbreviation loc := nat (only parsing).
Abbreviation store F := (list (DataFrame F)) (only parsing).

Definition M (F A : Type) : Type := store F → (exn + A) * store F.

Definition raise {F A} (e : exn) : M F A := fun h => (inl e, h).

#[global] Instance M_ret {F} : MRet (M F) := fun A a h => (inr a, h).
#[global] Instance M_bind {F} : MBind (M F) := fun A B k m h =>
  match m h with
  | (inr a, h') => k a h'
  | (inl e, h') => (inl e, h')
  end.

Definition new {F} (d : DataFrame F) : M F loc :=
  fun h => (inr (length h), h ++ [d]).
Definition deref {F} (l : loc) : M F (DataFrame F) :=
  fun h => match h !! l with
           | Some d => (inr d, h)
           | None => (inl DanglingReference, h)
           end.
Definition assign {F} (l : loc) (d : DataFrame F) : M F unit :=
  fun h => match h !! l with
           | Some _ => (inr tt, <[l := d]> h)
           | None => (inl DanglingReference, h)
           end.

(** ** The pandas operations the script calls *)

Section pandas.
Context {F : Type} `{Numeric F}.

(** pandas' reading of a string as a number is not part of the script: it is
    a parameter, [None] for a string that is not a number. *)
Variable parse_number : string → option F.

(** [df[c]] *)
Fixpoint lookup_column (d : DataFrame F) (c : string) : option (list (cell F)) :=
  match d with
  | [] => None
  | (k, v) :: d' => if String.eqb k c then Some v else lookup_column d' c
  end.

(** [df[c] = v] on the frame itself: an existing column is replaced where it
    stands, a new one is added last. *)
Fixpoint set_column (d : DataFrame F) (c : string) (v : list (cell F)) : DataFrame F :=
  match d with
  | [] => [(c, v)]
  | (k, v0) :: d' =>
      if String.eqb k c then (k, v) :: d' else (k, v0) :: set_column d' c v
  end.

(** [len(df)] *)
Definition nrows (d : DataFrame F) : nat :=
  match d with
  | [] => 0
  | (_, v) :: _ => length v
  end.

(** [df.copy()]: a new object with the same contents. *)
Definition DataFrame_copy (df : loc) : M F loc :=
  d ← deref df; new d.

Definition getitem (df : loc) (c : string) : M F (list (cell F)) :=
  d ← deref df;
  match lookup_column d c with
  | Some v => mret v
  | None => raise KeyError
  end.

(** [df[c] = series], the series carrying the frame's own index (alignment
    is then the identity). *)
Definition setitem_series (df : loc) (c : string) (v : list F) : M F unit :=
  d ← deref df; assign df (set_column d c (map CNum v)).

(** [df[c] = [x0, x1, ...]]: a list must have one value per row. *)
Definition setitem_list (df : loc) (c : string) (v : list F) : M F unit :=
  d ← deref df;
  if bool_decide (d = []) || Nat.eqb (length v) (nrows d)
  then assign df (set_column d c (map CNum v))
  else raise ValueError.

(** [df[c] = array]: the array must have one value per row; a frame
    without rows takes its rows from the array, the cells of its other
    columns missing. *)
Definition setitem_values (df : loc) (c : string) (v : list (cell F)) : M F unit :=
  d ← deref df;
  if Nat.eqb (length v) (nrows d) then assign df (set_column d c v)
  else if Nat.eqb (nrows d) 0 then
    assign df (set_column (map (fun column => (column.1, replicate (length v) CNone)) d) c v)
  else raise ValueError.

(** [pd.to_numeric(col, errors="coerce")]: what is not a number becomes the
    missing value ([None] here, NaN there). *)
Definition to_numeric (v : list (cell F)) : list (option F) :=
  map (fun c => match c with
                | CNum x => Some x
                | CStr s => parse_number s
                | CNone => None
                end) v.

(** [.fillna(z)] *)
Definition fillna (z : F) (v : list (option F)) : list F :=
  map (fun o => match o with
                | Some x => if isnan x then z else x
                | None => z
                end) v.

(** [.sum()]: NaN skipped, the additions taken from left to right. *)
Definition Series_sum (v : list F) : F :=
  fold_left (fun acc x => add acc (if isnan x then zero else x)) v zero.

(** [.round(decimals)]: numpy scales by the power of ten, rounds to the
    nearest integer and scales back. *)
Definition Series_round (decimals : nat) (v : list F) : list F :=
  let p := of_nat (10 ^ decimals) in
  map (fun x => div (rint (mul x p)) p) v.

(** [.idxmax()]: the first position of the largest value, NaN skipped. *)
Fixpoint argmax_from (v : list F) (i : nat) (best : option (nat * F)) : option (nat * F) :=
  match v with
  | [] => best
  | x :: v' =>
      argmax_from v' (S i)
        (if isnan x then best
         else match best with
              | None => Some (i, x)
              | Some (_, m) => if fltb m x then Some (i, x) else best
              end)
  end.

Definition idxmax (v : list F) : M F nat :=
  match argmax_from v 0 None with
  | Some (i, _) => mret i
  | None => raise ValueError
  end.

(** [.index[0]] *)
Definition index_first (v : list F) : M F nat :=
  match v with
  | [] => raise IndexError
  | _ :: _ => mret 0
  end.

(** [.at[i]] *)
Definition at_get (v : list F) (i : nat) : M F F :=
  match v !! i with
  | Some x => mret x
  | None => raise KeyError
  end.

(** [.at[i] = x] *)
Definition at_set (v : list F) (i : nat) (x : F) : list F := <[i := x]> v.

(** Python's [x / n] for a float [x] and an int [n]. *)
Definition truediv (x : F) (n : nat) : M F F :=
  match n with
  | 0 => raise ZeroDivisionError
  | S _ => mret (div x (of_nat n))
  end.

End pandas.

(** ** The script *)

(** How a pass of the script over the page ends, and the frame the session
    refers to then: [st.experimental_rerun()] stops the pass and starts the
    next one, otherwise the pass goes on to the charts and the export with
    its working copy [df]. *)
Inductive pass : Type :=
  | Rerun (session : loc)
  | Continue (session : loc) (df : loc).

Section script.
Context {F : Type} `{Numeric F}.
Variable parse_number : string → option F.

Definition ALLOCATION : string := "Allocation (%)".

Definition default_portfolio_data : DataFrame F :=
  [ ("Asset",
      [ CStr "Fixed Deposits (FD)";
        CStr "Public Provident Fund (PPF)";
        CStr "Debt Mutual Funds";
        CStr "Government Bonds (G-Secs)";
        CStr "Senior Citizens Savings Scheme (SCSS)" ]);
    ("Risk",
      [ CStr "Very Low"; CStr "Very Low"; CStr "Low"; CStr "Very Low"; CStr "Very Low" ]);
    ("Reward",
      [ CStr "5-7"; CStr "7.1 (current)"; CStr "6-8"; CStr "6-7"; CStr "8.2 (current)" ]);
    ("Time of Investment",
      [ CStr "1-5 years"; CStr "15 years"; CStr "3-5 years"; CStr "5+ years"; CStr "5 years" ]);
    (ALLOCATION,
      [ CNum (of_nat 30); CNum (of_nat 20); CNum (of_nat 20); CNum (of_nat 20); CNum (of_nat 10) ]);
    ("Source",
      [ CStr "RBI, SBI"; CStr "India Post"; CStr "AMFI"; CStr "RBI"; CStr "India Post" ]);
    ("Reasons",
      [ CStr "Provides stable returns in the 5–7% range. Perfect for short to medium-term goals (1–5 years). No market volatility; liquidity with penalty for early withdrawal.";
        CStr "Government-backed; one of India's safest long-term instruments. EEE tax treatment; builds retirement corpus.";
        CStr "Suitable for low-risk investors seeking better post-tax returns than FD. Offers liquidity, diversification, and indexation benefits.";
        CStr "Considered risk-free (backed by Government of India). Good for wealth preservation and long-term stability.";
        CStr "Designed for senior citizens with one of the highest safe rates (currently 8.2%). Quarterly payouts provide regular income." ]) ].

Definition default_portfolio_df : M F loc := new default_portfolio_data.

Definition sum_allocations (df : loc) : M F F :=
  col ← getitem df ALLOCATION;
  mret (Series_sum (fillna zero (to_numeric parse_number col))).

(** [tol] is [1e-6] ([tol6]) when the caller gives none. *)
Definition is_allocation_ok (df : loc) (tol : F) : M F bool :=
  s ← sum_allocations df;
  mret (fleb (fabs (sub s hundred)) tol).

Definition normalize_allocations (df : loc) : M F loc :=
  df ← DataFrame_copy df;
  col ← getitem df ALLOCATION;
  let vals := fillna zero (to_numeric parse_number col) in
  let total := Series_sum vals in
  normalized ←
    (if feqb total zero then
       let n := length vals in
       share ← truediv hundred n;
       mret (replicate n share)
     else
       mret (map (fun v => mul (div v total) hundred) vals));
  let rounded := Series_round 2 normalized in
  let residue := sub hundred (Series_sum rounded) in
  rounded ←
    (if fltb tol9 (fabs residue) then
       idx ← (if negb (feqb (Series_sum rounded) zero)
              then idxmax rounded
              else index_first rounded);
       x ← at_get rounded idx;
       mret (at_set rounded idx (add x residue))
     else mret rounded);
  setitem_series df ALLOCATION rounded;;
  mret df.

(** The sidebar's "Apply preset" button, on the session's frame. *)
Definition apply_preset (preset : string) (df : loc) : M F unit :=
  if String.eqb preset "Default Conservative" then
    setitem_list df ALLOCATION (map of_nat [30; 20; 20; 20; 10])
  else if String.eqb preset "Ultra-safe (more FD/G-Secs)" then
    setitem_list df ALLOCATION (map of_nat [40; 15; 10; 25; 10])
  else if String.eqb preset "Income-focused (more PPF/SCSS)" then
    setitem_list df ALLOCATION (map of_nat [20; 30; 10; 20; 20])
  else mret tt.

(** The "Actions" block and the line that persists the view, from the
    assignment of [new_allocs] on.  [new_allocs] is what the table of
    number inputs returned, [normalize] and [save] what the two buttons
    returned, [session] the frame [st.session_state.portfolio_df] refers to
    and [df] the working copy.  The calls that only display something
    ([st.markdown], [st.success], [st.error]) are left out; the values they
    show are computed, since computing them can raise. *)
Definition actions (new_allocs : list F) (normalize save : bool) (session df : loc)
  : M F pass :=
  setitem_list df ALLOCATION new_allocs;;
  total ← sum_allocations df;
  ok ← is_allocation_ok df tol6;
  if normalize then
    df ← normalize_allocations df;
    mret (Rerun df)
  else
    (if save then
       values ← getitem df ALLOCATION;
       setitem_values session ALLOCATION values
     else mret tt);;
    session ← DataFrame_copy df;
    mret (Continue session df).

End script.

(** ** CSV export

    [DataFrame.to_csv] with [index=False] and the defaults otherwise: comma
    separated, fields quoted only when they need it, one line feed after
    each record. *)

Definition comma : ascii := ","%char.
Definition dquote : ascii := Ascii.ascii_of_nat 34.
Definition newline : ascii := Ascii.ascii_of_nat 10.
Definition carriage_return : ascii := Ascii.ascii_of_nat 13.

(** The characters that make [csv.writer] quote a field. *)
Definition special (c : ascii) : bool :=
  Ascii.eqb c comma || Ascii.eqb c dquote || Ascii.eqb c newline
  || Ascii.eqb c carriage_return.

Fixpoint needs_quote (s : string) : bool :=
  match s with
  | EmptyString => false
  | String c s' => special c || needs_quote s'
  end.

Fixpoint escape_quotes (s : string) : string :=
  match s with
  | EmptyString => EmptyString
  | String c s' =>
      if Ascii.eqb c dquote then String dquote (String dquote (escape_quotes s'))
      else String c (escape_quotes s')
  end.

Definition csv_field (s : string) : string :=
  if needs_quote s
  then String dquote (escape_quotes s +:+ String dquote EmptyString)
  else s.

(** One record: the fields joined by commas and the line terminator; a
    record that would be empty, a single empty field, is written quoted. *)
Definition csv_record (fields : list string) : string :=
  match fields with
  | [EmptyString] => String dquote (String dquote (String newline EmptyString))
  | _ => String.concat (String comma EmptyString) (map csv_field fields)
           +:+ String newline EmptyString
  end.

Section csv.
Context {F : Type} `{Numeric F}.

(** The text pandas writes for a float is not part of the script. *)
Variable repr_number : F → string.

(** A missing value is written as the empty string. *)
Definition format_cell (c : option (cell F)) : string :=
  match c with
  | Some (CNum x) => if isnan x then EmptyString else repr_number x
  | Some (CStr s) => s
  | Some CNone | None => EmptyString
  end.

Definition row_cells (d : DataFrame F) (i : nat) : list string :=
  map (fun column => format_cell (column.2 !! i)) d.

(** [df.to_csv(buf, index=False)]: the header, then one record per row. *)
Definition to_csv (d : DataFrame F) : string :=
  csv_record (map fst d)
  +:+ String.concat EmptyString (map (fun i => csv_record (row_cells d i)) (seq 0 (nrows d))).

(** A [str] is kept as the bytes of its UTF-8 encoding, so encoding it only
    hands those bytes over. *)
Definition encode_utf8 (s : string) : list Byte.byte := String.list_byte_of_string s.

Definition df_to_csv_bytes (df : loc) : M F (list Byte.byte) :=
  d ← deref df;
  mret (encode_utf8 (to_csv d)).

End csv.

(** *** Reading CSV and UTF-8

    The reader of records, as [csv.reader] for the default dialect: a field
    is plain or quoted, a quote inside a quoted field is written twice, a
    record ends with the line; a blank line is the empty record. *)
Inductive reading : Type := FieldStart | InField | InQuotes | AfterQuote.

Fixpoint csv_read_from (st : reading) (fld : string) (row : list string) (s : string)
  : list (list string) :=
  match s with
  | EmptyString =>
      match st, row with
      | FieldStart, [] => []
      | _, _ => [row ++ [fld]]
      end
  | String c s' =>
      match st with
      | FieldStart =>
          if Ascii.eqb c dquote then csv_read_from InQuotes EmptyString row s'
          else if Ascii.eqb c comma then
            csv_read_from FieldStart EmptyString (row ++ [EmptyString]) s'
          else if Ascii.eqb c newline then
            match row with [] => [] | _ :: _ => row ++ [EmptyString] end
              :: csv_read_from FieldStart EmptyString [] s'
          else csv_read_from InField (String c EmptyString) row s'
      | InField =>
          if Ascii.eqb c comma then csv_read_from FieldStart EmptyString (row ++ [fld]) s'
          else if Ascii.eqb c newline then
            (row ++ [fld]) :: csv_read_from FieldStart EmptyString [] s'
          else csv_read_from InField (fld +:+ String c EmptyString) row s'
      | InQuotes =>
          if Ascii.eqb c dquote then csv_read_from AfterQuote fld row s'
          else csv_read_from InQuotes (fld +:+ String c EmptyString) row s'
      | AfterQuote =>
          if Ascii.eqb c dquote then
            csv_read_from InQuotes (fld +:+ String dquote EmptyString) row s'
          else if Ascii.eqb c comma then csv_read_from FieldStart EmptyString (row ++ [fld]) s'
          else if Ascii.eqb c newline then
            (row ++ [fld]) :: csv_read_from FieldStart EmptyString [] s'
          else csv_read_from InField (fld +:+ String c EmptyString) row s'
      end
  end.

Definition csv_read (s : string) : list (list string) :=
  csv_read_from FieldStart EmptyString [] s.


(** Where the reader stands after a whole field, in front of the separator. *)
Definition after_field (f : string) : reading * string :=
  if needs_quote f then (AfterQuote, f)
  else match f with
       | EmptyString => (FieldStart, EmptyString)
       | String _ _ => (InField, f)
       end.







(** A formatter for the examples: Python's text for a float with an integral
    value, as in [repr(30.0) == '30.0']. *)
Definition integral_repr (q : Q) : string := pretty (Qfloor q) +:+ ".0".

(** ** The page

    One pass of the script over the page.  What Streamlit, plotly and
    pandas do on the way is not part of the script: the values the widgets
    return are inputs of the pass, the calls that only display something
    are left out, and [st.experimental_rerun()] ends the pass.  The session
    is assigned for the last time on the line that persists the view:
    [page] is the pass up to there, [script] the whole of it. *)

(** What the widgets return in one pass. *)
Record widgets (F : Type) : Type := {
  show_reasons : bool;                      (* the checkbox of the sidebar *)
  reset_button : bool;                      (* "Reset to default" *)
  preset : string;                          (* the selectbox *)
  preset_button : bool;                     (* "Apply preset" *)
  number_input : string → F → exn + F;      (* by key and initial value *)
  normalize_button : bool;                  (* "Normalize allocations" *)
  save_button : bool;                       (* "Save changes" *)
}.
Arguments show_reasons {F} w.
Arguments reset_button {F} w.
Arguments preset {F} w.
Arguments preset_button {F} w.
Arguments number_input {F} w key value.
Arguments normalize_button {F} w.
Arguments save_button {F} w.

Section page.
Context {F : Type} `{Numeric F}.
Variable parse_number : string → option F.

(** [float(pd.to_numeric(x, errors="coerce").fillna(0.0))] for the one cell
    [x] of a row.  What [to_numeric] returns for a single value, and whether
    that has a [fillna], is pandas' matter: the conversion is a parameter,
    and it may raise. *)
Variable to_float : cell F → exn + F.

(** The two charts, [px.pie] and [px.bar] with what displays them, are
    library calls on the frame of the charts; so is the text of a float. *)
Variable pie_chart : DataFrame F → exn + unit.
Variable bar_chart : DataFrame F → exn + unit.
Variable repr_number : F → string.

(** The outcome of a library call, in the monad. *)
Definition result {A} (r : exn + A) : M F A := fun h => (r, h).

(** [row[c]] for the row [i] of [df.iterrows()]. *)
Definition row_getitem (d : DataFrame F) (i : nat) (c : string) : M F (cell F) :=
  match lookup_column d c with
  | Some column => mret (default CNone (column !! i))
  | None => raise KeyError
  end.

(** The loop over the rows of the table: one number input per row. *)
Fixpoint table_rows (w : widgets F) (d : DataFrame F) (index : list nat) : M F (list F) :=
  match index with
  | [] => mret []
  | i :: index' =>
      row_getitem d i "Asset";;
      row_getitem d i "Reward";;
      row_getitem d i "Time of Investment";;
      x ← row_getitem d i ALLOCATION;
      current ← result (to_float x);
      value ← result (number_input w ("alloc_" +:+ pretty i) current);
      row_getitem d i "Source";;
      (if show_reasons w then row_getitem d i "Reasons";; mret tt else mret tt);;
      new_allocs ← table_rows w d index';
      mret (value :: new_allocs)
  end.

Definition table (w : widgets F) (df : loc) : M F (list F) :=
  d ← deref df;
  table_rows w d (seq 0 (nrows d)).

(** The pass up to the line that persists the view, [session] being the
    frame the session refers to: the working copy, the sidebar, the table
    and the buttons under it. *)
Definition page (w : widgets F) (session : loc) : M F pass :=
  df ← DataFrame_copy session;
  if reset_button w then
    session ← default_portfolio_df;
    mret (Rerun session)
  else if preset_button w then
    apply_preset (preset w) session;;
    mret (Rerun session)
  else
    new_allocs ← table w df;
    actions parse_number new_allocs (normalize_button w) (save_button w) session df.

(** The charts and the export, once the view is persisted. *)
Definition charts_and_export (df : loc) : M F (list Byte.byte) :=
  chart_df ← DataFrame_copy df;
  col ← getitem chart_df ALLOCATION;
  let vals := fillna zero (to_numeric parse_number col) in
  setitem_series chart_df ALLOCATION vals;;
  d ← deref chart_df;
  (if fltb zero (Series_sum vals) then result (pie_chart d) else mret tt);;
  result (bar_chart d);;
  df_to_csv_bytes repr_number df.


(** The frame the session refers to after a pass that started with
    [session]: an exception leaves it where it was. *)
Definition session_after (session : loc) (r : exn + pass) : loc :=
  match r with
  | inr (Rerun s) | inr (Continue s _) => s
  | inl _ => session
  end.

(** What a whole pass leaves, however it ends: the frame the session
    refers to, and the store.  The session is assigned in [page] only, an
    exception in the charts or in the export leaves it as [page] left it. *)
Definition visit (w : widgets F) (state : loc * store F) : loc * store F :=
  match page w state.1 state.2 with
  | (inr (Continue session df), h) => (session, (charts_and_export df h).2)
  | (r, h) => (session_after state.1 r, h)
  end.

(** The states of a session: the first pass creates the default portfolio
    for the session, every later pass starts from what the one before left. *)
Inductive reachable : loc * store F → Prop :=
  | first_pass w h0 s h :
      default_portfolio_df h0 = (inr s, h) → reachable (visit w (s, h))
  | next_pass w state :
      reachable state → reachable (visit w state).

(** The frame [s] is the default portfolio, but for its five allocations. *)
Definition portfolio (h : store F) (s : loc) : Prop :=
  ∃ col, h !! s = Some (set_column default_portfolio_data ALLOCATION col) ∧ length col = 5.

End page.

(** ** Vocabulary of the statements *)

(** *** The column a call computes

    The value [normalize_allocations] computes for the column, read off its
    body: [weights] is [vals], [shares_of] the branch on [total],
    [residue_target] the choice of [idx], [absorb_residue] the correction of
    [rounded].  [normalize_allocations_run] below ties them to the function. *)
Section column_view.
Context {F : Type} `{Numeric F}.
Variable parse_number : string → option F.

Definition weights (col : list (cell F)) : list F :=
  fillna zero (to_numeric parse_number col).

Definition shares_of (vals : list F) : exn + list F :=
  let total := Series_sum vals in
  if feqb total zero then
    match length vals with
    | 0 => inl ZeroDivisionError
    | S _ as n => inr (replicate n (div hundred (of_nat n)))
    end
  else inr (map (fun v => mul (div v total) hundred) vals).

Definition residue_target (rounded : list F) : exn + nat :=
  if negb (feqb (Series_sum rounded) zero) then
    match argmax_from rounded 0 None with
    | Some (i, _) => inr i
    | None => inl ValueError
    end
  else
    match rounded with
    | [] => inl IndexError
    | _ :: _ => inr 0
    end.

Definition absorb_residue (rounded : list F) : exn + list F :=
  let residue := sub hundred (Series_sum rounded) in
  if fltb tol9 (fabs residue) then
    match residue_target rounded with
    | inr idx =>
        match rounded !! idx with
        | Some x => inr (<[idx := add x residue]> rounded)
        | None => inl KeyError
        end
    | inl e => inl e
    end
  else inr rounded.

Definition normalized_column (col : list (cell F)) : exn + list F :=
  match shares_of (weights col) with
  | inr normalized => absorb_residue (Series_round 2 normalized)
  | inl e => inl e
  end.

(** [df] refers to the frame [d], whose allocation column is [col]. *)
Definition holds (h : store F) (df : loc) (d : DataFrame F) (col : list (cell F)) : Prop :=
  h !! df = Some d ∧ lookup_column d ALLOCATION = Some col.

(** The call succeeds: it returns a new frame, [d] with [out] for its
    allocation column, and leaves the store otherwise as it was. *)
Definition returns (h : store F) (df : loc) (d : DataFrame F) (out : list F) : Prop :=
  normalize_allocations parse_number df h =
    (inr (length h), h ++ [set_column d ALLOCATION (map CNum out)]).

(** An entry that [to_numeric] and [fillna] turn into zero. *)
Definition invalid (c : cell F) : bool :=
  match c with
  | CNum x => isnan x
  | CStr s => match parse_number s with Some x => isnan x | None => true end
  | CNone => true
  end.

Definition zero_invalid (col : list (cell F)) : list (cell F) :=
  map (fun c => if invalid c then CNum zero else c) col.

(** What a call leaves of the store it started from, and where its result
    is: no frame of [h] is touched, the result is a new frame with the
    columns of the argument, all but the allocation column unchanged. *)
Definition preserves_input (h : store F) (df : loc) (r : exn + loc) (h' : store F) : Prop :=
  (∀ l d, h !! l = Some d → h' !! l = Some d) ∧
  (∀ l', r = inr l' →
     h !! l' = None ∧
     ∃ d d', h !! df = Some d ∧ h' !! l' = Some d' ∧
             map fst d' = map fst d ∧
             ∀ c, c ≠ ALLOCATION → lookup_column d' c = lookup_column d c).

(** The frame the session starts with has allocations summing to 100. *)
Definition initial_ok : Prop :=
  ∀ h : store F,
    ∃ h', default_portfolio_df h = (inr (length h), h') ∧
          sum_allocations parse_number (length h) h' = (inr hundred, h') ∧
          is_allocation_ok parse_number (length h) tol6 h' = (inr true, h').

(** Applying [preset] to a five-row frame leaves allocations summing to 100. *)
Definition preset_ok (preset : string) : Prop :=
  ∀ (h : store F) df d,
    h !! df = Some d → nrows d = 5 →
    ∃ h', apply_preset preset df h = (inr tt, h') ∧
          sum_allocations parse_number df h' = (inr hundred, h') ∧
          is_allocation_ok parse_number df tol6 h' = (inr true, h').

End column_view.

(** The allocation column of the frame a result refers to. *)
Definition allocations_of {F} (r : (exn + loc) * store F) : option (list (cell F)) :=
  match r with
  | (inr l, h) => d ← h !! l; lookup_column d ALLOCATION
  | (inl _, _) => None
  end.

Definition presets : list string :=
  ["Default Conservative"; "Ultra-safe (more FD/G-Secs)"; "Income-focused (more PPF/SCSS)"].

(** *** Exact arithmetic *)

(** The sum of a list of rationals. *)
Definition Qsum (l : list Q) : Q := fold_right Qplus 0%Q l.

(** A value with at most two decimal places. *)
Definition two_decimal (x : Q) : Prop := ∃ k : Z, (x == inject_Z k / 100)%Q.

(** Rounding to two decimal places, as [Series_round 2] does it. *)
Definition round2 (x : Q) : Q := div (rint (mul x 100%Q)) 100%Q.

(** [m] is the largest value of [v] and [i] the first position holding it. *)
Definition first_max (v : list Q) (i : nat) (m : Q) : Prop :=
  v !! i = Some m ∧
  (∀ j y, v !! j = Some y → (y <= m)%Q) ∧
  (∀ j y, j < i → v !! j = Some y → (y < m)%Q).

Definition best_of (v : list Q) (best : option (nat * Q)) : Prop :=
  match best with
  | None => v = []
  | Some (i, m) => first_max v i m
  end.

Definition tolerance : Q := (1 # 1000000000)%Q.

(** *** The claims about the normalizer, as predicates on one call *)

Section claims.
Variable parse : string → option Q.
Variables (h : store Q) (df : loc) (d : DataFrame Q) (col : list (cell Q)).



(** Every output is the equal share 100 / count. *)
Definition equal_shares : Prop :=
  ∃ out, returns parse h df d out ∧
         Forall (fun o => (o == 100 / inject_Z (Z.of_nat (length col)))%Q) out.

(** Every output but the first is the equal share rounded to two decimals,
    the first is what is left of 100; they are the equal shares when
    100 / count has no more than two decimals. *)
Definition rounded_shares : Prop :=
  let n := length col in
  let share := round2 (100 / inject_Z (Z.of_nat n))%Q in
  ∃ first,
    returns parse h df d (first :: replicate (n - 1) share) ∧
    (first == 100 - inject_Z (Z.of_nat (n - 1)) * share)%Q ∧
    (two_decimal (100 / inject_Z (Z.of_nat n))%Q → equal_shares).

(** The output is the input. *)
Definition unchanged : Prop :=
  ∃ out, returns parse h df d out ∧ Forall2 Qeq out (weights parse col).


End claims.

(** *** Inputs of the examples *)

(** A parser for which no string is a number. *)
Definition no_strings {F} : string → option F := fun _ => None.

(** A frame with the allocation column alone. *)
Definition frame_of {F} (ws : list F) : DataFrame F := [(ALLOCATION, map CNum ws)].

Definition default_weights : list Q := [30; 20; 20; 20; 10]%Q.
Definition short_weights : list Q := [30; 20; 20; 20; 5]%Q.
Definition tens : list Q := [10; 10; 10]%Q.
Definition zeros (n : nat) : list Q := replicate n 0%Q.
Definition many_equal : list Q := replicate 155 1%Q.

Definition patchy {F} `{Numeric F} : list (cell F) :=
  [CNum (of_nat 50); CStr "n/a"; CNone; CNum (of_nat 50)].

(** The first allocation of the frame a result refers to. *)
Definition first_allocation {F} (r : (exn + loc) * store F) : option F :=
  match allocations_of r with
  | Some (CNum x :: _) => Some x
  | _ => None
  end.

(** The sum of the allocations of the frame a result refers to, when they
    are all numbers. *)
Definition allocations_sum {F} `{Numeric F} (r : (exn + loc) * store F) : option F :=
  col ← allocations_of r;
  Some (Series_sum (omap (fun c => match c with CNum x => Some x | _ => None end) col)).

Definition portfolio_after : DataFrame Q :=
  set_column default_portfolio_data ALLOCATION (map CNum default_weights).

(** A conversion of one cell for the examples: a number is itself, anything
    else is zero. *)
Definition number_or_zero {F} `{Numeric F} (c : cell F) : exn + F :=
  match c with
  | CNum x => inr x
  | _ => inr zero
  end.

(** The widgets of a visitor who touches nothing: every number input
    returns its initial value, no button is pressed. *)
Definition untouched {F} : widgets F := {|
  show_reasons := true;
  reset_button := false;
  preset := "— none —";
  preset_button := false;
  number_input := fun _ value => inr value;
  normalize_button := false;
  save_button := false;
|}.

(** The same visitor pressing "Normalize". *)
Definition pressing_normalize {F} : widgets F := {|
  show_reasons := true;
  reset_button := false;
  preset := "— none —";
  preset_button := false;
  number_input := fun _ value => inr value;
  normalize_button := true;
  save_button := false;
|}.

(** A chart that is drawn. *)
Definition drawn {F} : DataFrame F → exn + unit := fun _ => inr tt.

(** * Proofs *)

(** ** Frames and calls, for any kind of number *)

Lemma lookup_snoc {A} (l : list A) (x : A) : (l ++ [x]) !! length l = Some x.
Proof. by apply list_lookup_middle. Qed.

Lemma lookup_set_column {F} (d : DataFrame F) c v :
  lookup_column (set_column d c v) c = Some v.
Proof.
  induction d as [|[k v0] d IH]; cbn.
  - by rewrite String.eqb_refl.
  - destruct (String.eqb k c) eqn:E; cbn; by rewrite E.
Qed.

Lemma lookup_set_column_ne {F} (d : DataFrame F) c c' v :
  c' ≠ c → lookup_column (set_column d c v) c' = lookup_column d c'.
Proof.
  intros Hne. induction d as [|[k v0] d IH]; cbn.
  - destruct (String.eqb c c') eqn:E; [|done]. apply String.eqb_eq in E. congruence.
  - destruct (String.eqb k c) eqn:E; cbn; [|by rewrite IH].
    apply String.eqb_eq in E as ->.
    destruct (String.eqb c c') eqn:E'; [|done]. apply String.eqb_eq in E'. congruence.
Qed.

Lemma set_column_names {F} (d : DataFrame F) c v col :
  lookup_column d c = Some col → map fst (set_column d c v) = map fst d.
Proof.
  induction d as [|[k v0] d IH]; cbn; [done|].
  destruct (String.eqb k c); cbn; [done|]. intros Hd. by rewrite IH.
Qed.

Lemma Forall_eq_replicate {A} (s : A) (l : list A) :
  Forall (fun r => r = s) l → l = replicate (length l) s.
Proof. induction 1 as [|x l -> _ IH]; [done|]. cbn. by rewrite <- IH. Qed.

Lemma weights_length {F} `{Numeric F} (p : string → option F) (col : list (cell F)) :
  length (weights p col) = length col.
Proof. unfold weights, fillna, to_numeric. by rewrite !length_map. Qed.

Lemma weights_nil {F} `{Numeric F} (p : string → option F) (col : list (cell F)) :
  weights p col = [] → col = [].
Proof. intros Hw. apply length_zero_iff_nil. by rewrite <- (weights_length p), Hw. Qed.

Lemma weights_zero_invalid {F} `{Numeric F} parse (col : list (cell F)) :
  weights parse (zero_invalid parse col) = weights parse col.
Proof.
  induction col as [|c col IH]; [done|].
  unfold weights, zero_invalid, fillna, to_numeric in *. cbn [map]. f_equal; [|done].
  destruct c as [x|s|]; cbn.
  - destruct (isnan x) eqn:Hx; cbn; [|by rewrite Hx]. by destruct (isnan zero).
  - destruct (parse s) as [x|] eqn:Hs; cbn.
    + destruct (isnan x) eqn:Hx; cbn; [by destruct (isnan zero)|by rewrite Hs, Hx].
    + by destruct (isnan zero).
  - by destruct (isnan zero).
Qed.

Section runs.
Context {F : Type} `{Numeric F}.
Variable parse : string → option F.

Lemma normalize_allocations_run h df d col :
  holds h df d col →
  normalize_allocations parse df h =
    match normalized_column parse col with
    | inr out => (inr (length h), h ++ [set_column d ALLOCATION (map CNum out)])
    | inl e => (inl e, h ++ [d])
    end.
Proof.
  intros [Hd Hcol].
  assert (Hnew : (h ++ [d]) !! length h = Some d).
  { apply lookup_snoc. }
  assert (Hset : ∀ d', <[length h := d']> (h ++ [d]) = h ++ [d']).
  { intros d'. rewrite insert_app_r_alt by lia. by rewrite Nat.sub_diag. }
  unfold normalize_allocations, DataFrame_copy, getitem, setitem_series,
    normalized_column, shares_of, absorb_residue, residue_target, weights,
    idxmax, index_first, at_get, at_set, truediv, deref, new, assign,
    mbind, M_bind, mret, M_ret, raise.
  rewrite Hd, Hnew, Hcol.
  destruct (feqb _ zero).
  - destruct (length (fillna zero (to_numeric parse col))) as [|n]; [done|].
    destruct (fltb tol9 _); [|by repeat (first [rewrite Hnew | rewrite Hset])].
    destruct (negb _).
    + destruct (argmax_from _ 0 None) as [[i m]|]; [|done].
      destruct (_ !! i); [|done]. by repeat (first [rewrite Hnew | rewrite Hset]).
    + destruct (Series_round 2 _) as [|x0 r]; [done|]. simpl.
      by repeat (first [rewrite Hnew | rewrite Hset]).
  - destruct (fltb tol9 _); [|by repeat (first [rewrite Hnew | rewrite Hset])].
    destruct (negb _).
    + destruct (argmax_from _ 0 None) as [[i m]|]; [|done].
      destruct (_ !! i); [|done]. by repeat (first [rewrite Hnew | rewrite Hset]).
    + destruct (Series_round 2 _) as [|x0 r]; [done|]. simpl.
      by repeat (first [rewrite Hnew | rewrite Hset]).
Qed.

Lemma normalize_allocations_dangling h df :
  h !! df = None → normalize_allocations parse df h = (inl DanglingReference, h).
Proof.
  intros Hd. unfold normalize_allocations, DataFrame_copy, deref, mbind, M_bind.
  by rewrite Hd.
Qed.

Lemma normalize_allocations_no_column h df d :
  h !! df = Some d → lookup_column d ALLOCATION = None →
  normalize_allocations parse df h = (inl KeyError, h ++ [d]).
Proof.
  intros Hd Hcol.
  assert (Hnew : (h ++ [d]) !! length h = Some d).
  { apply lookup_snoc. }
  unfold normalize_allocations, DataFrame_copy, getitem, deref, new, raise, mbind, M_bind.
  by rewrite Hd, Hnew, Hcol.
Qed.

Lemma sum_allocations_run h df d col :
  holds h df d col →
  sum_allocations parse df h = (inr (Series_sum (weights parse col)), h).
Proof.
  intros [Hd Hcol].
  unfold sum_allocations, getitem, deref, mbind, M_bind, mret, M_ret.
  by rewrite Hd, Hcol.
Qed.

Lemma is_allocation_ok_run h df d col tol :
  holds h df d col →
  is_allocation_ok parse df tol h =
    (inr (fleb (fabs (sub (Series_sum (weights parse col)) hundred)) tol), h).
Proof.
  intros Hh. unfold is_allocation_ok, mbind, M_bind, mret, M_ret.
  by rewrite (sum_allocations_run h df d col Hh).
Qed.

End runs.

Lemma setitem_list_run {F} `{Numeric F} (h : list (DataFrame F)) df d v :
  h !! df = Some d → nrows d = length v →
  setitem_list df ALLOCATION v h
    = (inr tt, <[df := set_column d ALLOCATION (map CNum v)]> h) ∧
  holds (<[df := set_column d ALLOCATION (map CNum v)]> h) df
    (set_column d ALLOCATION (map CNum v)) (map CNum v).
Proof.
  intros Hd Hn. split.
  - unfold setitem_list, deref, assign, raise, mbind, M_bind.
    rewrite Hd, Hn, Nat.eqb_refl, orb_true_r. by rewrite Hd.
  - split; [|apply lookup_set_column].
    apply list_lookup_insert_eq. by eapply lookup_lt_Some.
Qed.

Lemma returns_allocations {F} `{Numeric F} parse h df d (out : list F) :
  returns parse h df d out →
  allocations_of (normalize_allocations parse df h) = Some (map CNum out).
Proof.
  unfold returns. intros ->. cbn [allocations_of].
  rewrite lookup_app_r by lia. rewrite Nat.sub_diag. cbn.
  apply lookup_set_column.
Qed.

Lemma returns_inj {F} `{Numeric F} parse h df d (out out' : list F) :
  returns parse h df d out → returns parse h df d out' → out = out'.
Proof.
  intros H1 H2. pose proof (returns_allocations _ _ _ _ _ H1) as E1.
  pose proof (returns_allocations _ _ _ _ _ H2) as E2.
  rewrite E1 in E2. injection E2 as E. clear -E. revert out' E.
  induction out as [|x out IH]; intros [|y out'] E; simplify_eq/=; [done|].
  f_equal. by apply IH.
Qed.

(** ** No exception on a non-empty column

    [idxmax] raises on a series of NaN only, and then the sum that guards it
    is a sum of zeros: all that is needed of the numbers is that 0 + 0 is 0
    and that 0 == 0. *)

Section total.
Context {F : Type} `{Numeric F}.
Variable parse : string → option F.
Hypothesis add_zero : add zero zero = zero.
Hypothesis zero_eq : feqb zero zero = true.

Lemma argmax_from_None (v : list F) i best :
  argmax_from v i best = None → best = None ∧ Forall (fun x => isnan x = true) v.
Proof.
  revert i best. induction v as [|x v IH]; intros i best; cbn [argmax_from].
  - by intros ->.
  - intros [Hb Hv]%IH. destruct (isnan x) eqn:Hx.
    + by split; [|constructor].
    + destruct best as [[j m]|]; [|done]. by destruct (fltb m x).
Qed.

Lemma argmax_from_bound (v : list F) i best j m :
  argmax_from v i best = Some (j, m) →
  (∀ jb mb, best = Some (jb, mb) → jb < i) → j < i + length v.
Proof.
  revert i best. induction v as [|x v IH]; intros i best; cbn [argmax_from length].
  - intros -> Hb. specialize (Hb _ _ eq_refl). lia.
  - intros Hv Hb. apply IH in Hv; [lia|].
    intros jb mb. destruct (isnan x).
    + intros Hbest. specialize (Hb _ _ Hbest). lia.
    + destruct best as [[j0 m0]|]; [destruct (fltb m0 x)|]; intros Hbest.
      * simplify_eq. lia.
      * specialize (Hb _ _ Hbest). lia.
      * simplify_eq. lia.
Qed.

Lemma Series_sum_all_nan (v : list F) :
  Forall (fun x => isnan x = true) v → Series_sum v = zero.
Proof.
  unfold Series_sum. induction 1 as [|x v Hx _ IH]; [done|].
  cbn [fold_left]. by rewrite Hx, add_zero.
Qed.

Lemma absorb_residue_defined (R : list F) :
  R ≠ [] → ∃ out, absorb_residue R = inr out ∧ length out = length R.
Proof.
  intros HR. unfold absorb_residue, residue_target. cbv zeta.
  destruct (fltb tol9 _); [|by eexists].
  destruct (negb (feqb (Series_sum R) zero)) eqn:Hs.
  - destruct (argmax_from R 0 None) as [[i m]|] eqn:Hi.
    + apply argmax_from_bound in Hi; [|done].
      destruct (lookup_lt_is_Some_2 R i) as [x ->]; [lia|].
      eexists; split; [done|]. by rewrite length_insert.
    + apply argmax_from_None in Hi as [_ Hnan].
      rewrite (Series_sum_all_nan _ Hnan), zero_eq in Hs. discriminate Hs.
  - destruct R as [|x R]; [done|]. cbn. eexists; split; [done|].
    by cbn.
Qed.

Lemma shares_of_defined (X : list F) :
  X ≠ [] → ∃ N, shares_of X = inr N ∧ length N = length X.
Proof.
  intros HX. unfold shares_of. cbv zeta. destruct (feqb (Series_sum X) zero).
  - destruct X as [|x X]; [done|]. cbn [length]. eexists; split; [done|].
    by rewrite length_replicate.
  - eexists; split; [done|]. by rewrite length_map.
Qed.

Lemma normalized_column_defined (col : list (cell F)) :
  col ≠ [] → ∃ out, normalized_column parse col = inr out ∧ length out = length col.
Proof.
  intros Hcol.
  assert (weights parse col ≠ []) as HX by (intros Hc; by apply weights_nil in Hc).
  destruct (shares_of_defined _ HX) as (N & HN & HlenN).
  rewrite weights_length in HlenN.
  destruct (absorb_residue_defined (Series_round 2 N)) as (out & Hout & Hlen).
  { unfold Series_round. intros Hc%(f_equal length). rewrite length_map, HlenN in Hc.
    by destruct col. }
  exists out. unfold normalized_column. rewrite HN. split; [done|].
  rewrite Hlen. unfold Series_round. by rewrite length_map.
Qed.

End total.

(** C7: values that are not numbers are coerced to zero, not rejected:
    [sum_allocations] and [normalize_allocations] give on a column what they
    give on the same column with every such entry replaced by the number 0,
    and neither raises an exception ([normalize_allocations] on a non-empty
    column).  Stated for every kind of number in which 0 + 0 = 0 and 0 == 0,
    binary64 and the rationals among them. *)
Theorem invalid_entries_count_as_zero {F} `{Numeric F}
    (parse : string → option F) h df d col h0 d0 :
  add zero zero = zero → feqb zero zero = true →
  holds h df d col → holds h0 df d0 (zero_invalid parse col) →
  (∃ s, sum_allocations parse df h = (inr s, h) ∧
        sum_allocations parse df h0 = (inr s, h0)) ∧
  (col ≠ [] → ∃ out, returns parse h df d out ∧ returns parse h0 df d0 out).
Proof.
  intros Hadd Hzero Hh Hh0. split.
  - eexists. split; [by eapply sum_allocations_run|].
    rewrite (sum_allocations_run parse h0 df d0 _ Hh0). by rewrite weights_zero_invalid.
  - intros Hcol.
    destruct (normalized_column_defined parse Hadd Hzero col Hcol) as (out & Hout & _).
    exists out. unfold returns.
    rewrite (normalize_allocations_run parse h df d col Hh), Hout.
    rewrite (normalize_allocations_run parse h0 df d0 _ Hh0).
    unfold normalized_column in *. by rewrite weights_zero_invalid, Hout.
Qed.

(** C7 at a column with a string and a [None] in it, in both arithmetics. *)
Lemma invalid_entries_count_as_zero_witness :
  (∃ out : list Q,
     returns no_strings [[(ALLOCATION, patchy)]] 0 [(ALLOCATION, patchy)] out ∧
     returns no_strings [[(ALLOCATION, zero_invalid no_strings patchy)]] 0
       [(ALLOCATION, zero_invalid no_strings patchy)] out) ∧
  (∃ out : list float,
     returns no_strings [[(ALLOCATION, patchy)]] 0 [(ALLOCATION, patchy)] out ∧
     returns no_strings [[(ALLOCATION, zero_invalid no_strings patchy)]] 0
       [(ALLOCATION, zero_invalid no_strings patchy)] out).
Proof.
  split.
  - apply (invalid_entries_count_as_zero (F := Q) no_strings
             [[(ALLOCATION, patchy)]] 0 [(ALLOCATION, patchy)] patchy
             [[(ALLOCATION, zero_invalid no_strings patchy)]]
             [(ALLOCATION, zero_invalid no_strings patchy)]);
      [reflexivity|reflexivity|split; reflexivity|split; reflexivity|discriminate].
  - apply (invalid_entries_count_as_zero (F := float) no_strings
             [[(ALLOCATION, patchy)]] 0 [(ALLOCATION, patchy)] patchy
             [[(ALLOCATION, zero_invalid no_strings patchy)]]
             [(ALLOCATION, zero_invalid no_strings patchy)]);
      [reflexivity|reflexivity|split; reflexivity|split; reflexivity|discriminate].
Defined.

(** ** The input is left alone *)

Section frame.
Context {F : Type} `{Numeric F}.
Variable parse : string → option F.

(** C9: [normalize_allocations] works on a copy: whatever the outcome, every
    frame of the store it was called in is still there unchanged, the input
    among them; a returned frame is a new one, with the columns of the input
    in the same order and every column other than "Allocation (%)" equal to
    the input's. *)
Theorem normalize_allocations_frame h df r h' :
  normalize_allocations parse df h = (r, h') → preserves_input h df r h'.
Proof.
  intros Hrun. destruct (h !! df) as [d|] eqn:Hd.
  - assert (∃ d', h' = h ++ [d'] ∧
              (∀ l', r = inr l' → l' = length h ∧ map fst d' = map fst d ∧
                 ∀ c, c ≠ ALLOCATION → lookup_column d' c = lookup_column d c))
      as (d' & -> & Hres).
    { destruct (lookup_column d ALLOCATION) as [col|] eqn:Hcol.
      - rewrite (normalize_allocations_run parse h df d col (conj Hd Hcol)) in Hrun.
        destruct (normalized_column parse col) as [e|out]; simplify_eq.
        + eexists; split; [done|]. by intros.
        + eexists; split; [done|]. intros l' [= <-]. split; [done|].
          split; [by eapply set_column_names|].
          intros c Hc. by apply lookup_set_column_ne.
      - rewrite (normalize_allocations_no_column parse h df d Hd Hcol) in Hrun. simplify_eq.
        eexists; split; [done|]. by intros. }
    split.
    + intros l d0 Hl. rewrite lookup_app_l; [done|]. by eapply lookup_lt_Some.
    + intros l' Hl'. destruct (Hres l' Hl') as (-> & Hnames & Hcols).
      split; [by apply lookup_ge_None_2|].
      exists d, d'. split; [done|]. split; [|done].
      by apply list_lookup_middle.
  - rewrite (normalize_allocations_dangling parse h df Hd) in Hrun. simplify_eq.
    split; [done|]. by intros.
Qed.

End frame.

(** C9 at the default portfolio. *)
Lemma normalize_allocations_frame_witness :
  normalize_allocations no_strings 0 [default_portfolio_data (F := Q)]
    = (inr 1, [default_portfolio_data; portfolio_after]) ∧
  preserves_input [default_portfolio_data] 0 (inr 1)
    [default_portfolio_data; portfolio_after].
Proof.
  assert (normalize_allocations no_strings 0 [default_portfolio_data (F := Q)]
            = (inr 1, [default_portfolio_data; portfolio_after])) as Hrun
    by (vm_compute; reflexivity).
  split; [exact Hrun|].
  exact (normalize_allocations_frame no_strings _ _ _ _ Hrun).
Defined.

(** ** The default portfolio and the presets *)

Ltac preset_tac parse Hd Hn :=
  match goal with
  | |- ∃ h', apply_preset _ ?df ?h = _ ∧ _ =>
      unfold apply_preset; cbn [String.eqb Ascii.eqb Bool.eqb];
      match goal with
      | |- ∃ h', setitem_list df ALLOCATION ?v h = _ ∧ _ =>
          destruct (setitem_list_run h df _ v Hd Hn) as [Hset Hh];
          eexists; split; [exact Hset|]; split;
          [ rewrite (sum_allocations_run parse _ _ _ _ Hh); reflexivity
          | rewrite (is_allocation_ok_run parse _ _ _ _ _ Hh); reflexivity ]
      end
  end.

Lemma presets_ok_exact (parse : string → option Q) : Forall (preset_ok parse) presets.
Proof.
  repeat constructor; intros h df d Hd Hn; preset_tac parse Hd Hn.
Qed.

Lemma presets_ok_binary64 (parse : string → option float) : Forall (preset_ok parse) presets.
Proof.
  repeat constructor; intros h df d Hd Hn; preset_tac parse Hd Hn.
Qed.

Lemma initial_ok_any {F} `{Numeric F} (parse : string → option F) :
  Series_sum (weights parse (map CNum (map of_nat [30; 20; 20; 20; 10]))) = hundred →
  fleb (fabs (sub hundred hundred)) tol6 = true →
  initial_ok parse.
Proof.
  intros Hsum Hok h. exists (h ++ [default_portfolio_data]). split; [done|].
  assert (holds (h ++ [default_portfolio_data]) (length h) default_portfolio_data
            (map CNum (map of_nat [30; 20; 20; 20; 10]))) as Hh.
  { split; [|reflexivity]. apply lookup_snoc. }
  rewrite (sum_allocations_run parse _ _ _ _ Hh), (is_allocation_ok_run parse _ _ _ _ _ Hh).
  by rewrite Hsum, Hok.
Qed.

(** C10: the allocations of the default portfolio and of each of the three
    presets sum to exactly 100 (in binary64 as in exact arithmetic): the
    frame [default_portfolio_df] creates, and every five-row frame after
    [apply_preset] with one of the three preset names, has
    [sum_allocations] equal to 100 and satisfies [is_allocation_ok]. *)
Theorem defaults_and_presets_sum_to_100
    (parseQ : string → option Q) (parseF : string → option float) :
  initial_ok parseQ ∧ initial_ok parseF ∧
  Forall (preset_ok parseQ) presets ∧ Forall (preset_ok parseF) presets.
Proof.
  split; [by apply initial_ok_any|]. split; [by apply initial_ok_any|].
  split; [apply presets_ok_exact|apply presets_ok_binary64].
Qed.

(** C10 in binary64, from the empty store: the default portfolio, and the
    frame after the "Ultra-safe" preset. *)
Lemma defaults_and_presets_sum_to_100_witness :
  is_allocation_ok (F := float) no_strings 0 tol6 [default_portfolio_data]
    = (inr true, [default_portfolio_data]) ∧
  ∃ h', apply_preset (F := float) "Ultra-safe (more FD/G-Secs)" 0 [default_portfolio_data]
          = (inr tt, h') ∧
        sum_allocations no_strings 0 h' = (inr 100%float, h') ∧
        is_allocation_ok no_strings 0 tol6 h' = (inr true, h').
Proof.
  destruct (defaults_and_presets_sum_to_100 no_strings no_strings)
    as (_ & Hinit & _ & Hpresets).
  split.
  - destruct (Hinit []) as (h' & Hnew & _ & Hok).
    cbn in Hnew. injection Hnew as <-. exact Hok.
  - apply (Forall_lookup_1 _ _ 1 "Ultra-safe (more FD/G-Secs)") in Hpresets; [|done].
    exact (Hpresets [default_portfolio_data] 0 default_portfolio_data eq_refl eq_refl).
Defined.

(** ** The CSV export, read back *)

Lemma string_app_cons c (a b : string) : String c a +:+ b = String c (a +:+ b).
Proof. reflexivity. Qed.

Lemma string_app_nil_l (a : string) : EmptyString +:+ a = a.
Proof. reflexivity. Qed.

Lemma string_app_assoc (a b c : string) : (a +:+ b) +:+ c = a +:+ (b +:+ c).
Proof.
  induction a as [|x a IH]; [done|]. rewrite !string_app_cons. by f_equal.
Qed.

Lemma string_app_nil_r (a : string) : a +:+ EmptyString = a.
Proof. induction a as [|x a IH]; [done|]. rewrite string_app_cons. by f_equal. Qed.

Lemma special_false c :
  special c = false →
  Ascii.eqb c comma = false ∧ Ascii.eqb c dquote = false ∧ Ascii.eqb c newline = false.
Proof.
  unfold special. intros Hs.
  destruct (Ascii.eqb c comma), (Ascii.eqb c dquote), (Ascii.eqb c newline); done.
Qed.

Lemma read_plain f fld row rest :
  needs_quote f = false →
  csv_read_from InField fld row (f +:+ rest) = csv_read_from InField (fld +:+ f) row rest.
Proof.
  revert fld. induction f as [|c f IH]; intros fld Hf.
  - by rewrite string_app_nil_r.
  - cbn [needs_quote] in Hf. apply orb_false_elim in Hf as [Hc Hf].
    destruct (special_false c Hc) as (Hcomma & _ & Hnl).
    rewrite string_app_cons. cbn [csv_read_from]. rewrite Hcomma, Hnl.
    rewrite (IH _ Hf), string_app_assoc. done.
Qed.

Lemma read_quoted f fld row rest :
  csv_read_from InQuotes fld row (escape_quotes f +:+ String dquote rest)
  = csv_read_from AfterQuote (fld +:+ f) row rest.
Proof.
  revert fld. induction f as [|c f IH]; intros fld; cbn [escape_quotes].
  - rewrite string_app_nil_l, string_app_nil_r. cbn [csv_read_from].
    by rewrite Ascii.eqb_refl.
  - destruct (Ascii.eqb c dquote) eqn:Hc.
    + apply Ascii.eqb_eq in Hc as ->. rewrite !string_app_cons.
      cbn [csv_read_from]. rewrite !Ascii.eqb_refl.
      by rewrite IH, string_app_assoc.
    + rewrite string_app_cons. cbn [csv_read_from].
      by rewrite Hc, IH, string_app_assoc.
Qed.

Lemma read_field f row rest :
  csv_read_from FieldStart EmptyString row (csv_field f +:+ rest)
  = csv_read_from (after_field f).1 (after_field f).2 row rest.
Proof.
  unfold csv_field, after_field. destruct (needs_quote f) eqn:Hq.
  - rewrite string_app_cons, string_app_assoc. cbn [csv_read_from fst snd].
    by rewrite Ascii.eqb_refl, string_app_cons, string_app_nil_l, read_quoted.
  - destruct f as [|c f]; [done|]. cbn [needs_quote] in Hq.
    apply orb_false_elim in Hq as [Hc Hf].
    destruct (special_false c Hc) as (Hcomma & Hdq & Hnl).
    rewrite string_app_cons. cbn [csv_read_from fst snd].
    rewrite Hcomma, Hdq, Hnl. by rewrite read_plain.
Qed.

Lemma read_field_comma f row rest :
  csv_read_from FieldStart EmptyString row (csv_field f +:+ String comma rest)
  = csv_read_from FieldStart EmptyString (row ++ [f]) rest.
Proof.
  rewrite read_field. unfold after_field.
  destruct (needs_quote f); [done|]. by destruct f.
Qed.

Lemma read_field_newline f row rest :
  ¬ (row = [] ∧ f = EmptyString) →
  csv_read_from FieldStart EmptyString row (csv_field f +:+ String newline rest)
  = (row ++ [f]) :: csv_read rest.
Proof.
  intros Hne. rewrite read_field. unfold after_field.
  destruct (needs_quote f); [done|]. destruct f; [|done].
  cbn. destruct row; [by destruct Hne|done].
Qed.

Lemma read_fields fs f row rest :
  ¬ (row = [] ∧ fs = [] ∧ f = EmptyString) →
  csv_read_from FieldStart EmptyString row
    (String.concat (String comma EmptyString) (map csv_field (f :: fs))
       +:+ String newline rest)
  = (row ++ f :: fs) :: csv_read rest.
Proof.
  revert f row. induction fs as [|g fs IH]; intros f row Hne.
  - cbn [map String.concat]. apply read_field_newline.
    intros [Hrow Hf]. by apply Hne.
  - cbn [map String.concat] in *. rewrite !string_app_assoc, string_app_cons.
    rewrite string_app_nil_l, read_field_comma, IH.
    + by rewrite <- app_assoc.
    + intros [Hrow _]. by destruct row.
Qed.

Lemma read_record fields rest :
  fields ≠ [] → csv_read (csv_record fields +:+ rest) = fields :: csv_read rest.
Proof.
  intros Hne. unfold csv_read at 1, csv_record.
  destruct fields as [|f fs]; [done|].
  assert (Hgen : ¬ ([] = @nil string ∧ fs = [] ∧ f = EmptyString) →
            csv_read_from FieldStart EmptyString []
              ((String.concat (String comma EmptyString) (map csv_field (f :: fs))
                  +:+ String newline EmptyString) +:+ rest)
            = (f :: fs) :: csv_read rest).
  { intros Hn. rewrite string_app_assoc, string_app_cons, string_app_nil_l.
    by rewrite read_fields. }
  destruct f as [|c f]; [destruct fs|]; [done|apply Hgen; by intros (_ & ? & ?)..].
Qed.

Lemma read_records (rows : list (list string)) rest :
  Forall (fun r => r ≠ []) rows →
  csv_read (fold_right (fun r acc => csv_record r +:+ acc) rest rows)
  = rows ++ csv_read rest.
Proof.
  induction 1 as [|r rows0 Hr _ IH]; [done|].
  cbn [fold_right]. by rewrite read_record, IH.
Qed.

Lemma concat_records (rows : list (list string)) :
  String.concat EmptyString (map csv_record rows)
  = fold_right (fun r acc => csv_record r +:+ acc) EmptyString rows.
Proof.
  induction rows as [|r [|r' rows] IH]; [done|cbn; by rewrite string_app_nil_r|].
  cbn [map String.concat fold_right] in *. by rewrite IH.
Qed.








Section export.
Context {F : Type} `{Numeric F}.
Variable repr : F → string.

Lemma to_csv_read (d : DataFrame F) :
  d ≠ [] →
  csv_read (to_csv repr d) = map fst d :: map (row_cells repr d) (seq 0 (nrows d)).
Proof.
  intros Hd. unfold to_csv.
  rewrite read_record by by destruct d. f_equal.
  rewrite <- map_map, concat_records, read_records, app_nil_r; [done|].
  apply Forall_fmap, Forall_forall. intros i _. by destruct d.
Qed.


End export.


(** ** Facts of exact arithmetic *)

Local Open Scope Q_scope.

Ltac unred := cbn [add sub mul div fabs exact]; rewrite ?Qred_correct.

Lemma Qsum_cons x l : Qsum (x :: l) = x + Qsum l.
Proof. reflexivity. Qed.

Lemma Series_sum_from (l : list Q) (a : Q) :
  fold_left (fun acc x => add acc (if isnan x then zero else x)) l a == a + Qsum l.
Proof.
  revert a. induction l as [|x l IH]; intros a; cbn [fold_left].
  - cbn. ring.
  - rewrite IH, Qsum_cons. unred. cbn. ring.
Qed.

Lemma Series_sum_exact (l : list Q) : Series_sum l == Qsum l.
Proof. unfold Series_sum. rewrite Series_sum_from. cbn. ring. Qed.

Lemma Qsum_insert (l : list Q) i x y :
  l !! i = Some x → Qsum (<[i := y]> l) == Qsum l - x + y.
Proof.
  revert i. induction l as [|a l IH]; intros [|i] Hi; simplify_eq/=.
  - ring.
  - rewrite (IH _ Hi). ring.
Qed.

Lemma Qsum_replicate n x : Qsum (replicate n x) == inject_Z (Z.of_nat n) * x.
Proof.
  induction n as [|n IH].
  - change (0 == 0 * x). ring.
  - cbn [replicate]. rewrite Qsum_cons, IH.
    rewrite Nat2Z.inj_succ. unfold Z.succ. rewrite inject_Z_plus.
    change (inject_Z 1) with 1. ring.
Qed.

Lemma Qsum_Forall2 (l l' : list Q) : Forall2 Qeq l l' → Qsum l == Qsum l'.
Proof. induction 1 as [|x y l l' Hxy _ IH]; [done|]. by rewrite !Qsum_cons, Hxy, IH. Qed.

Lemma Qsum_nonneg (l : list Q) : Forall (Qle 0) l → 0 <= Qsum l.
Proof. induction 1 as [|x l Hx _ IH]; [done|]. rewrite Qsum_cons. lra. Qed.


Lemma Qsum_two_decimal (l : list Q) : Forall two_decimal l → two_decimal (Qsum l).
Proof.
  induction 1 as [|x l [k Hk] _ [K HK]].
  - exists 0%Z. reflexivity.
  - exists (k + K)%Z. rewrite Qsum_cons, Hk, HK, inject_Z_plus. field.
Qed.

(** *** Rounding *)

Lemma Q_rint_spec q :
  ∃ k : Z, Q_rint q = inject_Z k ∧ Qabs (inject_Z k - q) <= 1 # 2.
Proof.
  unfold Q_rint. cbv zeta.
  pose proof (Qfloor_le q) as Hlo. pose proof (Qlt_floor q) as Hhi.
  rewrite inject_Z_plus in Hhi. change (inject_Z 1) with 1 in Hhi.
  destruct (Qle_bool (q - inject_Z (Qfloor q)) (1 # 2)) eqn:E1.
  - apply Qle_bool_iff in E1.
    assert (Qabs (inject_Z (Qfloor q) - q) <= 1 # 2) as Hdown.
    { apply Qabs_Qle_condition. split; lra. }
    destruct (Qle_bool (1 # 2) (q - inject_Z (Qfloor q))) eqn:E2.
    + apply Qle_bool_iff in E2.
      destruct (Z.even (Qfloor q)); [by eexists|].
      eexists; split; [done|]. rewrite inject_Z_plus. change (inject_Z 1) with 1.
      apply Qabs_Qle_condition. split; lra.
    + by eexists.
  - assert (¬ q - inject_Z (Qfloor q) <= 1 # 2) as E1'.
    { intros Hc. apply Qle_bool_iff in Hc. congruence. }
    eexists; split; [done|]. rewrite inject_Z_plus. change (inject_Z 1) with 1.
    apply Qabs_Qle_condition. split; lra.
Qed.

Lemma Q_rint_nonneg q : 0 <= q → 0 <= Q_rint q.
Proof.
  intros Hq. unfold Q_rint.
  assert (0 <= Qfloor q)%Z as Hf.
  { change 0%Z with (Qfloor 0). by apply Qfloor_resp_le. }
  assert (0 <= inject_Z (Qfloor q)) as Hf1.
  { change 0 with (inject_Z 0). by rewrite <- Zle_Qle. }
  assert (0 <= inject_Z (Qfloor q + 1)) as Hf2.
  { change 0 with (inject_Z 0). rewrite <- Zle_Qle. lia. }
  cbv zeta. repeat case_match; assumption.
Qed.

Lemma Q_rint_proper q q' : q == q' → Q_rint q = Q_rint q'.
Proof.
  intros Hq. unfold Q_rint. cbv zeta.
  rewrite (Qfloor_comp _ _ Hq).
  assert (q - inject_Z (Qfloor q') == q' - inject_Z (Qfloor q')) as Hd
    by (rewrite Hq; ring).
  by rewrite !Hd.
Qed.

Lemma Q_rint_inject_Z k : Q_rint (inject_Z k) = inject_Z k.
Proof.
  unfold Q_rint. cbv zeta. rewrite Qfloor_Z.
  assert (inject_Z k - inject_Z k == 0) as Hd by ring.
  by rewrite !Hd.
Qed.

Lemma Series_round_2 (l : list Q) : Series_round 2 l = map round2 l.
Proof. reflexivity. Qed.

Lemma round2_value x : round2 x == Q_rint (x * 100) / 100.
Proof.
  unfold round2. unred. by rewrite (Q_rint_proper _ (x * 100)) by apply Qred_correct.
Qed.

Lemma round2_two_decimal x : two_decimal (round2 x).
Proof.
  destruct (Q_rint_spec (x * 100)) as (k & Hk & _).
  exists k. by rewrite round2_value, Hk.
Qed.

Lemma round2_close x : Qabs (round2 x - x) <= 1 # 200.
Proof.
  destruct (Q_rint_spec (x * 100)) as (k & Hk & Hclose).
  rewrite round2_value, Hk.
  apply Qabs_Qle_condition in Hclose. apply Qabs_Qle_condition.
  assert (inject_Z k / 100 - x == (inject_Z k - x * 100) / 100) as -> by field.
  split.
  - apply Qle_shift_div_l; lra.
  - apply Qle_shift_div_r; lra.
Qed.

Lemma round2_nonneg x : 0 <= x → 0 <= round2 x.
Proof.
  intros Hx. rewrite round2_value. apply Qle_shift_div_l; [lra|].
  rewrite Qmult_0_l. apply Q_rint_nonneg. lra.
Qed.

Lemma round2_proper x y : x == y → round2 x = round2 y.
Proof.
  intros Hxy. unfold round2. cbn [div mul rint exact]. apply Qred_complete.
  rewrite (Q_rint_proper (Qred (x * 100)) (Qred (y * 100))); [done|].
  by rewrite !Qred_correct, Hxy.
Qed.

Lemma round2_fixed x : two_decimal x → round2 x == x.
Proof.
  intros [k Hk]. rewrite round2_value.
  rewrite (Q_rint_proper (x * 100) (inject_Z k)) by (rewrite Hk; field).
  by rewrite Q_rint_inject_Z, Hk.
Qed.

(** *** The first largest value *)

Lemma Q_ltb_lt x y : Q_ltb x y = true ↔ x < y.
Proof.
  unfold Q_ltb. rewrite negb_true_iff. split.
  - intros Hb. apply Qnot_le_lt. intros Hle. apply Qle_bool_iff in Hle. congruence.
  - intros Hlt. destruct (Qle_bool y x) eqn:E; [|done].
    apply Qle_bool_iff in E. lra.
Qed.

Lemma Q_ltb_ge x y : Q_ltb x y = false ↔ y <= x.
Proof.
  unfold Q_ltb. rewrite negb_false_iff. apply Qle_bool_iff.
Qed.

Lemma best_of_snoc (v : list Q) (x : Q) best :
  best_of v best →
  best_of (v ++ [x])
    (match best with
     | None => Some (length v, x)
     | Some (_, m) => if fltb m x then Some (length v, x) else best
     end).
Proof.
  assert (Hlast : (v ++ [x]) !! length v = Some x).
  { apply lookup_snoc. }
  assert (Hcases : ∀ j y, (v ++ [x]) !! j = Some y →
            v !! j = Some y ∧ (j < length v)%nat ∨ j = length v ∧ y = x).
  { intros j y Hj. destruct (decide (j < length v)%nat) as [Hlt|Hge].
    - left. by rewrite lookup_app_l in Hj.
    - right. rewrite lookup_app_r in Hj by lia.
      destruct (j - length v)%nat as [|k] eqn:Hk; [|done].
      simplify_eq/=. split; [lia|done]. }
  destruct best as [[i m]|]; cbn [best_of].
  - intros (Him & Hall & Hbefore). cbn [fltb exact].
    destruct (Q_ltb m x) eqn:Hlt.
    + apply Q_ltb_lt in Hlt. split; [done|]. split.
      * intros j y [[Hj _]|[_ ->]]%Hcases; [|lra].
        specialize (Hall _ _ Hj). lra.
      * intros j y Hji [[Hj _]|[-> _]]%Hcases; [|lia].
        specialize (Hall _ _ Hj). lra.
    + apply Q_ltb_ge in Hlt. split; [|split].
      * rewrite lookup_app_l; [done|]. by eapply lookup_lt_Some.
      * intros j y [[Hj _]|[_ ->]]%Hcases; [by eapply Hall|done].
      * intros j y Hji [[Hj _]|[-> _]]%Hcases; [by eapply Hbefore|].
        apply lookup_lt_Some in Him. lia.
  - intros ->. cbn. split; [done|]. split.
    + intros [|j] y Hj; simplify_eq/=. lra.
    + intros j y Hj. lia.
Qed.

Lemma argmax_from_best (pre v : list Q) best :
  best_of pre best →
  best_of (pre ++ v) (argmax_from v (length pre) best).
Proof.
  revert pre best. induction v as [|x v IH]; intros pre best Hbest.
  - by rewrite app_nil_r.
  - cbn [argmax_from isnan exact].
    replace (pre ++ x :: v) with ((pre ++ [x]) ++ v) by by rewrite <- app_assoc.
    replace (S (length pre)) with (length (pre ++ [x]))
      by (rewrite length_app; cbn; lia).
    apply IH. by apply best_of_snoc.
Qed.

Lemma argmax_first_max (v : list Q) :
  v ≠ [] → ∃ i m, argmax_from v 0 None = Some (i, m) ∧ first_max v i m.
Proof.
  intros Hv. pose proof (argmax_from_best [] v None eq_refl) as Hb.
  cbn [app length] in Hb.
  destruct (argmax_from v 0 None) as [[i m]|]; [by eauto|done].
Qed.

(** *** The two halves of the computation *)

Lemma feqb_zero (x : Q) : feqb x zero = true ↔ x == 0.
Proof. apply Qeq_bool_iff. Qed.

Lemma of_nat_pos n : (0 < n)%nat → 0 < inject_Z (Z.of_nat n).
Proof. intros Hn. change 0 with (inject_Z 0). rewrite <- Zlt_Qlt. lia. Qed.

Lemma shares_of_exact (X : list Q) :
  X ≠ [] →
  ∃ N, shares_of X = inr N ∧ length N = length X ∧ Qsum N == 100 ∧
       (Forall (Qle 0) X → Forall (Qle 0) N) ∧
       (Qsum X == 0 →
          Forall (fun x => x == 100 / inject_Z (Z.of_nat (length X))) N) ∧
       (¬ Qsum X == 0 →
          Forall2 (fun w x => x == w / Qsum X * 100) X N).
Proof.
  intros HX. unfold shares_of. cbv zeta.
  destruct (feqb (Series_sum X) zero) eqn:Hz.
  - apply feqb_zero in Hz. rewrite Series_sum_exact in Hz.
    destruct X as [|x0 X']; [done|]. cbn [length].
    set (n := S (length X')).
    assert (0 < inject_Z (Z.of_nat n)) as Hn by (apply of_nat_pos; lia).
    assert (div hundred (of_nat n) == 100 / inject_Z (Z.of_nat n)) as Hshare.
    { cbn [div hundred of_nat exact]. apply Qred_correct. }
    eexists; split; [done|]. split; [by rewrite length_replicate|].
    split; [|split; [|split]].
    + rewrite Qsum_replicate, Hshare. field. lra.
    + intros _. apply Forall_replicate. rewrite Hshare.
      apply Qle_shift_div_l; lra.
    + intros _. by apply Forall_replicate.
    + intros Hnz. by destruct Hnz.
  - assert (¬ Qsum X == 0) as Hnz.
    { intros Hc. rewrite <- Series_sum_exact in Hc. apply feqb_zero in Hc. congruence. }
    assert (Hpoint : Forall2 (fun w x => x == w / Qsum X * 100) X
              (map (fun v => mul (div v (Series_sum X)) hundred) X)).
    { apply Forall2_fmap_r, Forall_Forall2_diag, Forall_forall. intros w _.
      unfold compose. cbn [mul div hundred exact].
      by rewrite !Qred_correct, Series_sum_exact. }
    eexists; split; [done|]. split; [by rewrite length_map|].
    split; [|split; [|split]].
    + assert (∀ Y N, Forall2 (fun w x => x == w / Qsum X * 100) Y N →
                Qsum N == Qsum Y / Qsum X * 100) as Hsum.
      { induction 1 as [|w x Y N Hwx _ IH]; [cbn; field; done|].
        rewrite !Qsum_cons, Hwx, IH. field. done. }
      rewrite (Hsum _ _ Hpoint). field. done.
    + intros Hpos. pose proof (Qsum_nonneg _ Hpos) as Hs.
      assert (0 < Qsum X) as Hs' by (apply Qle_lteq in Hs as [?|Heq]; [done|by destruct Hnz]).
      revert Hpos Hpoint. generalize (map (fun v => mul (div v (Series_sum X)) hundred) X).
      intros N Hpos Hpoint. revert Hpos.
      induction Hpoint as [|w x Y N' Hwx _ IH]; intros Hpos; [done|].
      inversion_clear Hpos. constructor; [|by apply IH].
      rewrite Hwx. apply Qmult_le_0_compat; [|lra].
      apply Qle_shift_div_l; lra.
    + intros Hc. by destruct Hnz.
    + done.
Qed.

Lemma two_decimal_small x : two_decimal x → Qabs x <= tolerance → x == 0.
Proof.
  intros [k Hk] Hsmall. rewrite Hk in *.
  apply Qabs_Qle_condition in Hsmall as [Hlo Hhi]. unfold tolerance in *.
  assert (-1 < k < 1)%Z as Hk1.
  { rewrite !Zlt_Qlt. change (inject_Z (-1)) with (-(1)). change (inject_Z 1) with 1.
    assert (inject_Z k == inject_Z k / 100 * 100) as Hq by field.
    split; lra. }
  assert (k = 0)%Z as -> by lia. reflexivity.
Qed.

Lemma two_decimal_plus x y : two_decimal x → two_decimal y → two_decimal (x + y).
Proof.
  intros [k Hk] [k' Hk']. exists (k + k')%Z. rewrite Hk, Hk', inject_Z_plus. field.
Qed.

Lemma two_decimal_minus x y : two_decimal x → two_decimal y → two_decimal (x - y).
Proof.
  intros [k Hk] [k' Hk']. exists (k - k')%Z. rewrite Hk, Hk'.
  unfold Z.sub. rewrite inject_Z_plus, inject_Z_opp. field.
Qed.

Lemma two_decimal_100 : two_decimal 100.
Proof. exists 10000%Z. reflexivity. Qed.

#[global] Instance two_decimal_proper : Proper (Qeq ==> iff) two_decimal.
Proof. intros x y Hxy. unfold two_decimal. by setoid_rewrite Hxy. Qed.

Lemma absorb_residue_exact (R : list Q) :
  R ≠ [] →
  ∃ out, absorb_residue R = inr out ∧
    ((Qabs (100 - Qsum R) <= tolerance ∧ out = R) ∨
     (tolerance < Qabs (100 - Qsum R) ∧
      ∃ i x y, R !! i = Some x ∧ y == x + (100 - Qsum R) ∧ Qred y = y ∧
               (¬ Qsum R == 0 → first_max R i x) ∧
               (Qsum R == 0 → i = 0%nat) ∧
               out = <[i := y]> R)).
Proof.
  intros HR. unfold absorb_residue. cbv zeta.
  assert (Hres : sub hundred (Series_sum R) == 100 - Qsum R).
  { cbn [sub hundred exact]. by rewrite Qred_correct, Series_sum_exact. }
  destruct (fltb tol9 (fabs (sub hundred (Series_sum R)))) eqn:Hbig.
  - apply Q_ltb_lt in Hbig. cbn [fabs tol9 exact] in Hbig. rewrite Hres in Hbig.
    assert (∃ i x, residue_target R = inr i ∧ R !! i = Some x ∧
                   (¬ Qsum R == 0 → first_max R i x) ∧
                   (Qsum R == 0 → i = 0%nat)) as (i & x & -> & Hix & Hmax & Hzero).
    { unfold residue_target.
      destruct (feqb (Series_sum R) zero) eqn:Hz; cbn [negb].
      - apply feqb_zero in Hz. rewrite Series_sum_exact in Hz.
        destruct R as [|x0 R']; [done|]. exists 0%nat, x0. by repeat split.
      - assert (¬ Qsum R == 0) as Hnz.
        { intros Hc. rewrite <- Series_sum_exact in Hc. apply feqb_zero in Hc. congruence. }
        destruct (argmax_first_max R HR) as (i & m & -> & Hfm).
        exists i, m. split; [done|]. split; [apply Hfm|]. split; [done|].
        intros Hc. by destruct Hnz. }
    rewrite Hix. eexists; split; [done|]. right. split; [done|].
    exists i, x, (add x (sub hundred (Series_sum R))).
    split; [done|]. split; [|split; [|by split]].
    + cbn [add exact]. by rewrite Qred_correct, Hres.
    + cbn [add exact]. apply Qred_complete, Qred_correct.
  - apply Q_ltb_ge in Hbig. cbn [fabs tol9 exact] in Hbig. rewrite Hres in Hbig.
    eexists; split; [done|]. by left.
Qed.

Lemma Qsum_round2_le (N : list Q) :
  Qsum (map round2 N) <= Qsum N + inject_Z (Z.of_nat (length N)) * (1 # 200).
Proof.
  induction N as [|x N IH].
  - change (0 <= 0 + 0 * (1 # 200)). lra.
  - cbn [map length]. rewrite !Qsum_cons, Nat2Z.inj_succ. unfold Z.succ.
    rewrite inject_Z_plus. change (inject_Z 1) with 1.
    pose proof (round2_close x) as [_ Hx]%Qabs_Qle_condition. lra.
Qed.

Lemma Forall_round2_nonneg (N : list Q) :
  Forall (Qle 0) N → Forall (Qle 0) (map round2 N).
Proof. intros HN. apply Forall_fmap. eapply Forall_impl; [done|]. apply round2_nonneg. Qed.

Lemma Forall_round2_two_decimal (N : list Q) : Forall two_decimal (map round2 N).
Proof. apply Forall_fmap, Forall_forall. intros x _. apply round2_two_decimal. Qed.


Lemma nonneg_check (l : list Q) : forallb (Qle_bool 0) l = true → Forall (Qle 0) l.
Proof.
  induction l as [|x l IH]; cbn; [done|].
  intros [Hx Hl]%andb_prop. constructor; [by apply Qle_bool_iff|by apply IH].
Qed.

Lemma weights_CNum parse (l : list Q) : weights parse (map CNum l) = l.
Proof. induction l as [|x l IH]; [done|]. cbn. f_equal. apply IH. Qed.

Lemma round2_reduced x : Qred (round2 x) = round2 x.
Proof. unfold round2. cbn [div exact]. apply Qred_complete, Qred_correct. Qed.

Lemma round2_fixed_eq x : two_decimal x → Qred x = x → round2 x = x.
Proof.
  intros H2 Hred. rewrite <- Hred at 2. rewrite <- round2_reduced.
  by apply Qred_complete, round2_fixed.
Qed.

(** The column computed from a non-empty input: it exists, has the length of
    the input, consists of two-decimal values and sums to 100. *)
Lemma normalized_column_exact parse (col : list (cell Q)) :
  col ≠ [] →
  ∃ N out,
    shares_of (weights parse col) = inr N ∧
    absorb_residue (map round2 N) = inr out ∧
    normalized_column parse col = inr out ∧
    length out = length col ∧ Forall two_decimal out ∧ Qsum out == 100.
Proof.
  intros Hcol.
  assert (weights parse col ≠ []) as HX by (intros Hc; by apply weights_nil in Hc).
  destruct (shares_of_exact _ HX) as (N & HN & Hlen & HsumN & _).
  assert (map round2 N ≠ []) as HR.
  { intros Hc%(f_equal length). rewrite length_map, Hlen, weights_length in Hc.
    by destruct col. }
  destruct (absorb_residue_exact _ HR) as (out & Hout & Hcases).
  exists N, out. unfold normalized_column. rewrite HN, Series_round_2, Hout.
  do 3 (split; [done|]).
  pose proof (Forall_round2_two_decimal N) as H2.
  destruct Hcases as [[Hsmall ->]|(Hbig & i & x & y & Hix & Hy & _ & _ & _ & ->)].
  - split; [by rewrite length_map, Hlen, weights_length|]. split; [done|].
    assert (100 - Qsum (map round2 N) == 0) as Hz.
    { apply two_decimal_small; [|done].
      apply two_decimal_minus; [apply two_decimal_100|by apply Qsum_two_decimal]. }
    lra.
  - split; [by rewrite length_insert, length_map, Hlen, weights_length|]. split.
    + apply Forall_insert; [done|]. rewrite Hy.
      apply two_decimal_plus; [by eapply Forall_lookup_1|].
      apply two_decimal_minus; [apply two_decimal_100|by apply Qsum_two_decimal].
    + rewrite (Qsum_insert _ _ _ _ Hix), Hy. ring.
Qed.

Lemma returns_exact parse h df d col :
  holds h df d col → col ≠ [] →
  ∃ N out, shares_of (weights parse col) = inr N ∧
           absorb_residue (map round2 N) = inr out ∧
           returns parse h df d out ∧
           length out = length col ∧ Forall two_decimal out ∧ Qsum out == 100.
Proof.
  intros Hh Hcol.
  destruct (normalized_column_exact parse col Hcol) as (N & out & HN & Habs & Hout & Hrest).
  exists N, out. do 2 (split; [done|]). split; [|done].
  unfold returns. by rewrite (normalize_allocations_run parse h df d col Hh), Hout.
Qed.

(** The column computed from a column that is normalized already. *)
Lemma absorb_residue_settled (R : list Q) :
  R ≠ [] → Qsum R == 100 → absorb_residue R = inr R.
Proof.
  intros HR Hsum. destruct (absorb_residue_exact R HR) as (out & -> & Hcases).
  destruct Hcases as [[_ ->]|[Hbig _]]; [done|].
  rewrite Hsum in Hbig. unfold tolerance in Hbig. by vm_compute in Hbig.
Qed.

Lemma normalized_column_fixed parse col :
  col ≠ [] → Forall two_decimal (weights parse col) → Qsum (weights parse col) == 100 →
  ∃ out, normalized_column parse col = inr out ∧
         Forall2 Qeq out (weights parse col) ∧
         (Forall (fun x => Qred x = x) (weights parse col) → out = weights parse col).
Proof.
  intros Hcol H2 Hsum.
  assert (weights parse col ≠ []) as HX by (intros Hc; by apply weights_nil in Hc).
  destruct (shares_of_exact _ HX) as (N & HN & HlenN & _ & _ & _ & Hpoint).
  assert (¬ Qsum (weights parse col) == 0) as Hnz by (rewrite Hsum; done).
  specialize (Hpoint Hnz).
  assert (Forall2 (fun w x => x == w) (weights parse col) N) as Hsame.
  { eapply Forall2_impl; [done|]. intros w x ->. rewrite Hsum. field. }
  assert (Forall2 Qeq (map round2 N) (weights parse col)) as Heq.
  { apply Forall2_fmap_l. clear -Hsame H2.
    induction Hsame as [|w x X N' Hwx _ IH]; [done|].
    inversion_clear H2. constructor; [|by apply IH].
    unfold compose. rewrite (round2_proper x w Hwx). by apply round2_fixed. }
  assert (map round2 N ≠ []) as HR.
  { intros Hc%(f_equal length). rewrite length_map, HlenN in Hc. by destruct (weights parse col). }
  exists (map round2 N). unfold normalized_column. rewrite HN, Series_round_2.
  split; [|split; [done|]].
  - apply absorb_residue_settled; [done|]. by rewrite (Qsum_Forall2 _ _ Heq).
  - intros Hred. clear -Hsame H2 Hred.
    induction Hsame as [|w x X N' Hwx _ IH]; [done|].
    inversion_clear H2. inversion_clear Hred. cbn [map]. f_equal; [|by apply IH].
    rewrite (round2_proper x w Hwx). by apply round2_fixed_eq.
Qed.

(** ** The claims about the normalizer, in exact arithmetic *)

(** C1: for every non-empty column of weights, [normalize_allocations]
    returns a column of the same length whose sum is 100 within 1e-9.  (No
    use is made of the weights being non-negative.) *)
Theorem normalize_allocations_total parse h df d col :
  holds h df d col → col ≠ [] →
  ∃ out, returns parse h df d out ∧
         length out = length col ∧ Qabs (Qsum out - 100) <= 1 # 1000000000.
Proof.
  intros Hh Hcol.
  destruct (returns_exact parse h df d col Hh Hcol) as (N & out & _ & _ & Hret & Hlen & _ & Hsum).
  exists out. do 2 (split; [done|]). rewrite Hsum. done.
Qed.

(** C1 at the weights 10, 10, 10. *)
Lemma normalize_allocations_total_witness :
  ∃ out, returns no_strings [frame_of tens] 0 (frame_of tens) out ∧
         length out = 3%nat ∧ Qabs (Qsum out - 100) <= 1 # 1000000000.
Proof.
  apply (normalize_allocations_total no_strings [frame_of tens] 0
           (frame_of tens) (map CNum tens)).
  - split; reflexivity.
  - discriminate.
Defined.




(** C3, amended: for every non-empty column whose weights sum to zero there
    is no exception, and every output but the first is the equal share
    100 / count rounded to two decimals, the first being what is left of
    100; the outputs are the equal shares 100 / count when that number has
    at most two decimals. *)
Theorem normalize_allocations_zero_sum parse h df d col :
  holds h df d col → col ≠ [] → Qsum (weights parse col) == 0 →
  rounded_shares parse h df d col.
Proof.
  intros Hh Hcol Hzero.
  destruct (returns_exact parse h df d col Hh Hcol)
    as (N & out & HN & Habs & Hret & Hlen & _ & Hout).
  assert (weights parse col ≠ []) as HX by (intros Hc; by apply weights_nil in Hc).
  destruct (shares_of_exact _ HX) as (N' & HN' & HlenN & _ & _ & Hshare & _).
  assert (N' = N) as -> by congruence.
  specialize (Hshare Hzero). rewrite weights_length in HlenN, Hshare.
  set (n := length col) in *.
  set (share := round2 (100 / inject_Z (Z.of_nat n))).
  assert (map round2 N = replicate n share) as HRrep.
  { rewrite <- HlenN, <- (length_map round2). apply Forall_eq_replicate.
    apply Forall_fmap. eapply Forall_impl; [done|]. intros x Hx. by apply round2_proper. }
  assert (map round2 N ≠ []) as HR.
  { intros Hc. rewrite Hc in Habs. done. }
  assert (∃ k, n = S k) as [k Hk] by (destruct col; [done|by eexists]).
  destruct (absorb_residue_exact _ HR) as (out' & Hout' & Hcases).
  assert (out' = out) as -> by congruence.
  assert (∃ first, out = first :: replicate (n - 1) share) as [first ->].
  { rewrite HRrep, Hk in Hcases. replace (n - 1)%nat with k by lia.
    destruct Hcases as [[_ ->]|(_ & i & x & y & Hix & _ & _ & Hmax & Hz & ->)]; [by eexists|].
    assert (i = 0%nat) as ->; [|by eexists].
    destruct (Qeq_dec (Qsum (replicate (S k) share)) 0) as [Hs|Hs]; [by apply Hz|].
    destruct (Hmax Hs) as (Hi & _ & Hbefore). destruct i as [|i]; [done|].
    apply lookup_replicate in Hi as [-> _].
    specialize (Hbefore 0%nat share ltac:(lia) eq_refl). lra. }
  assert (first == 100 - inject_Z (Z.of_nat (n - 1)) * share) as Hfirst.
  { rewrite Qsum_cons, Qsum_replicate in Hout. lra. }
  exists first. cbv zeta. fold n. fold share. do 2 (split; [done|]).
  intros H2. exists (first :: replicate (n - 1) share). split; [done|]. fold n.
  assert (0 < inject_Z (Z.of_nat n)) as Hn by (apply of_nat_pos; lia).
  assert (share == 100 / inject_Z (Z.of_nat n)) as Hs by by apply round2_fixed.
  constructor; [|apply Forall_replicate; done].
  rewrite Hfirst, Hs. replace (n - 1)%nat with k by lia. rewrite Hk.
  rewrite Nat2Z.inj_succ. unfold Z.succ. rewrite inject_Z_plus.
  change (inject_Z 1) with 1. field.
  rewrite Hk, Nat2Z.inj_succ in Hn. unfold Z.succ in Hn. rewrite inject_Z_plus in Hn.
  change (inject_Z 1) with 1 in Hn. lra.
Qed.

(** C3, amended, at five zeros: five entries 20.00, the equal shares. *)
Lemma normalize_allocations_zero_sum_witness :
  returns no_strings [frame_of (zeros 5)] 0 (frame_of (zeros 5)) [20; 20; 20; 20; 20] ∧
  equal_shares no_strings [frame_of (zeros 5)] 0 (frame_of (zeros 5)) (map CNum (zeros 5)).
Proof.
  destruct (normalize_allocations_zero_sum no_strings [frame_of (zeros 5)] 0
              (frame_of (zeros 5)) (map CNum (zeros 5))) as (first & Hret & Hfirst & Heq).
  - split; reflexivity.
  - discriminate.
  - reflexivity.
  - split; [|apply Heq; by exists 2000%Z].
    assert (returns no_strings [frame_of (zeros 5)] 0 (frame_of (zeros 5))
              [20; 20; 20; 20; 20]) as Hret' by reflexivity.
    exact Hret'.
Defined.

(** C3 as stated fails for three zeros: the outputs are 33.34, 33.33, 33.33,
    not three times 100 / 3. *)
Lemma equal_shares_fails_for_three_zeros :
  holds [frame_of (zeros 3)] 0 (frame_of (zeros 3)) (map CNum (zeros 3)) ∧
  map CNum (zeros 3) ≠ [] ∧
  Qsum (weights no_strings (map CNum (zeros 3))) == 0 ∧
  returns no_strings [frame_of (zeros 3)] 0 (frame_of (zeros 3))
    [1667 # 50; 3333 # 100; 3333 # 100] ∧
  ¬ equal_shares no_strings [frame_of (zeros 3)] 0 (frame_of (zeros 3)) (map CNum (zeros 3)).
Proof.
  assert (returns no_strings [frame_of (zeros 3)] 0 (frame_of (zeros 3))
            [1667 # 50; 3333 # 100; 3333 # 100]) as Hret' by reflexivity.
  split; [split; reflexivity|]. split; [discriminate|]. split; [reflexivity|].
  split; [done|].
  intros (out & Hret & Hall).
  rewrite (returns_inj _ _ _ _ _ _ Hret Hret') in Hall.
  inversion_clear Hall as [|? ? Hhead _]. apply Qeq_bool_iff in Hhead. discriminate.
Qed.









(** ** The same inputs in binary64

    The examples above, run with IEEE-754 doubles.  Each statement is one
    that does not depend on the order in which a sum is taken. *)

Local Close Scope Q_scope.

Example binary64_default_unchanged :
  returns no_strings [frame_of [30; 20; 20; 20; 10]%float] 0
    (frame_of [30; 20; 20; 20; 10]%float) [30; 20; 20; 20; 10]%float.
Proof. reflexivity. Qed.

Example binary64_five_zeros :
  returns no_strings [frame_of (replicate 5 0%float)] 0
    (frame_of (replicate 5 0%float)) (replicate 5 20%float).
Proof. reflexivity. Qed.

Example binary64_is_allocation_ok :
  is_allocation_ok no_strings 0 tol6 [frame_of [30; 20; 20; 20; 10]%float]
    = (inr true, [frame_of [30; 20; 20; 20; 10]%float]) ∧
  is_allocation_ok no_strings 0 tol6 [frame_of [30; 20; 20; 20; 5]%float]
    = (inr false, [frame_of [30; 20; 20; 20; 5]%float]).
Proof. split; reflexivity. Qed.

(** 10, 10, 10: the outputs sum to 100 within 1e-9. *)
Example binary64_tens_total :
  (s ← allocations_sum (normalize_allocations no_strings 0 [frame_of [10; 10; 10]%float]);
   Some (fleb (fabs (sub s hundred)) tol9)) = Some true.
Proof. reflexivity. Qed.

(** Three zeros: the first output is larger than the other two. *)
Example binary64_three_zeros :
  match allocations_of (normalize_allocations no_strings 0 [frame_of (replicate 3 0%float)]) with
  | Some [CNum a; CNum b; CNum c] => fltb b a && feqb b c
  | _ => false
  end = true.
Proof. reflexivity. Qed.

(** 33.333, 33.333, 33.334: the first output is not the first input. *)
Example binary64_thirds :
  let x := PrimFloat.div 33333 1000 in
  (y ← first_allocation
         (normalize_allocations no_strings 0 [frame_of [x; x; PrimFloat.div 33334 1000]]);
   Some (fltb x y)) = Some true.
Proof. reflexivity. Qed.

(** 155 equal weights: the first output is negative. *)
Example binary64_many_equal :
  (y ← first_allocation
         (normalize_allocations no_strings 0 [frame_of (replicate 155 1%float)]);
   Some (fltb y zero)) = Some true.
Proof. reflexivity. Qed.

(** -250, 250 and 25000 times 1: the residue goes to position 0. *)
Example binary64_skewed :
  take 3 <$> allocations_of
    (normalize_allocations no_strings 0
       [frame_of ([-250; 250] ++ replicate 25000 1)%float])
  = Some [CNum 99; CNum 1; CNum 0]%float.
Proof. by vm_compute. Qed.

(** * Further properties of the helpers and of the page *)

(** ** Errors and edge cases, for any kind of number *)

Section edges.
Context {F : Type} `{Numeric F}.
Variable parse : string → option F.

(** A portfolio without rows: [sum_allocations] returns 0, and
    [normalize_allocations] raises [ZeroDivisionError] (the total is zero
    and the equal share is 100.0 / 0); the frames of the store are left as
    they were, the copy made at the start being the only new object. *)
Theorem empty_portfolio h df d :
  feqb zero zero = true →
  holds h df d [] →
  sum_allocations parse df h = (inr zero, h) ∧
  normalize_allocations parse df h = (inl ZeroDivisionError, h ++ [d]).
Proof.
  intros Hz Hh. split.
  - by rewrite (sum_allocations_run parse h df d [] Hh).
  - rewrite (normalize_allocations_run parse h df d [] Hh).
    unfold normalized_column, shares_of. cbn. by rewrite Hz.
Qed.

(** A frame without the column "Allocation (%)": the three helpers raise
    [KeyError]; [sum_allocations] and [is_allocation_ok] leave the store as
    it was, [normalize_allocations] has made its copy by then. *)
Theorem missing_column_is_KeyError h df d tol :
  h !! df = Some d → lookup_column d ALLOCATION = None →
  sum_allocations parse df h = (inl KeyError, h) ∧
  is_allocation_ok parse df tol h = (inl KeyError, h) ∧
  normalize_allocations parse df h = (inl KeyError, h ++ [d]).
Proof.
  intros Hd Hcol.
  assert (sum_allocations parse df h = (inl KeyError, h)) as Hsum.
  { unfold sum_allocations, getitem, deref, raise, mbind, M_bind. by rewrite Hd, Hcol. }
  split; [done|]. split.
  - unfold is_allocation_ok, mbind, M_bind. by rewrite Hsum.
  - by apply normalize_allocations_no_column.
Qed.

End edges.

(** The empty portfolio, in both arithmetics. *)
Lemma empty_portfolio_witness :
  (sum_allocations (F := Q) no_strings 0 [frame_of []] = (inr 0%Q, [frame_of []]) ∧
   normalize_allocations (F := Q) no_strings 0 [frame_of []]
     = (inl ZeroDivisionError, [frame_of []; frame_of []])) ∧
  (sum_allocations (F := float) no_strings 0 [frame_of []] = (inr 0%float, [frame_of []]) ∧
   normalize_allocations (F := float) no_strings 0 [frame_of []]
     = (inl ZeroDivisionError, [frame_of []; frame_of []])).
Proof.
  split.
  - exact (empty_portfolio (F := Q) no_strings [frame_of []] 0 (frame_of [])
             eq_refl (conj eq_refl eq_refl)).
  - exact (empty_portfolio (F := float) no_strings [frame_of []] 0 (frame_of [])
             eq_refl (conj eq_refl eq_refl)).
Defined.

(** A frame with the column "Asset" alone. *)
Lemma missing_column_is_KeyError_witness :
  let d : DataFrame float := [("Asset", [CStr "Gold"])] in
  sum_allocations no_strings 0 [d] = (inl KeyError, [d]) ∧
  is_allocation_ok no_strings 0 tol6 [d] = (inl KeyError, [d]) ∧
  normalize_allocations no_strings 0 [d] = (inl KeyError, [d; d]).
Proof.
  exact (missing_column_is_KeyError (F := float) no_strings
           [[("Asset", [CStr "Gold"])]] 0 [("Asset", [CStr "Gold"])] tol6 eq_refl eq_refl).
Defined.

(** ** The presets, on the frame of the session *)

Lemma set_column_twice {F} (d : DataFrame F) c v w :
  set_column (set_column d c v) c w = set_column d c w.
Proof.
  induction d as [|[k v0] d IH]; cbn.
  - by rewrite String.eqb_refl.
  - destruct (String.eqb k c) eqn:E; cbn; rewrite E; [done|]. by rewrite IH.
Qed.

Lemma nrows_set_column {F} (d : DataFrame F) c v :
  d ≠ [] → length v = nrows d → nrows (set_column d c v) = nrows d.
Proof.
  destruct d as [|[k v0] d]; [done|]. intros _ Hv. cbn in *.
  by destruct (String.eqb k c).
Qed.

Section presets.
Context {F : Type} `{Numeric F}.

Lemma apply_preset_cases preset (df : nat) :
  (preset ∈ presets ∧
   (∃ v : list F, length v = 5 ∧ apply_preset preset df = setitem_list df ALLOCATION v)) ∨
  ((preset ∉ presets) ∧ apply_preset (F := F) preset df = mret tt).
Proof.
  unfold apply_preset, presets.
  destruct (String.eqb preset "Default Conservative") eqn:E1.
  { apply String.eqb_eq in E1 as ->. left. split; [rewrite !elem_of_cons; auto|].
    eexists. split; [|reflexivity]. reflexivity. }
  destruct (String.eqb preset "Ultra-safe (more FD/G-Secs)") eqn:E2.
  { apply String.eqb_eq in E2 as ->. left. split; [rewrite !elem_of_cons; auto|].
    eexists. split; [|reflexivity]. reflexivity. }
  destruct (String.eqb preset "Income-focused (more PPF/SCSS)") eqn:E3.
  { apply String.eqb_eq in E3 as ->. left. split; [rewrite !elem_of_cons; auto|].
    eexists. split; [|reflexivity]. reflexivity. }
  right. split; [|done].
  apply String.eqb_neq in E1, E2, E3.
  rewrite !elem_of_cons, elem_of_nil. tauto.
Qed.

Lemma setitem_list_ok (h : list (DataFrame F)) df d c v :
  h !! df = Some d → length v = nrows d →
  setitem_list df c v h = (inr tt, <[df := set_column d c (map CNum v)]> h).
Proof.
  intros Hd Hn. unfold setitem_list, deref, assign, raise, mbind, M_bind.
  rewrite Hd, Hn, Nat.eqb_refl, orb_true_r. by rewrite Hd.
Qed.

(** "Apply preset" works in place: on a five-row frame it raises nothing,
    changes the frame it is given and no other object of the store, keeps
    the five rows and every column other than "Allocation (%)"; a name that
    is none of the three presets (the "— none —" entry) changes nothing. *)
Theorem apply_preset_in_place preset (h : list (DataFrame F)) df (d : DataFrame F) :
  h !! df = Some d → nrows d = 5 →
  ∃ d', apply_preset preset df h = (inr tt, <[df := d']> h) ∧
        nrows d' = 5 ∧
        (∀ c, c ≠ ALLOCATION → lookup_column d' c = lookup_column d c) ∧
        (preset ∉ presets → d' = d).
Proof.
  intros Hd Hn.
  destruct (apply_preset_cases preset df) as [(Hin & v & Hv & ->)|[Hout ->]].
  - exists (set_column d ALLOCATION (map CNum v)).
    split; [apply setitem_list_ok; [done|lia]|]. split.
    { rewrite nrows_set_column; [done| |rewrite length_map; lia].
      intros ->. discriminate Hn. }
    split; [|done]. intros c Hc. by apply lookup_set_column_ne.
  - exists d. split; [|done]. by rewrite list_insert_id.
Qed.


(** A preset overrides what was there: applying one of the three presets
    after any other choice leaves the store that applying it alone leaves. *)
Theorem apply_preset_overrides p q (h : list (DataFrame F)) df (d : DataFrame F) :
  q ∈ presets → h !! df = Some d → nrows d = 5 →
  (apply_preset p df;; apply_preset q df) h = apply_preset q df h.
Proof.
  intros Hq Hd Hn. unfold mbind at 1. unfold M_bind.
  destruct (apply_preset_cases p df) as [(_ & v & Hv & ->)|[_ ->]]; [|done].
  destruct (apply_preset_cases q df) as [(_ & w & Hw & ->)|[Hout _]]; [|done].
  assert (d ≠ []) as Hne by (intros ->; discriminate Hn).
  rewrite (setitem_list_ok h df d) by (done || lia).
  erewrite (setitem_list_ok (<[df := _]> h) df).
  - rewrite (setitem_list_ok h df d) by (done || lia).
    by rewrite list_insert_insert_eq, set_column_twice.
  - apply list_lookup_insert_eq. by eapply lookup_lt_Some.
  - rewrite nrows_set_column; [lia|done|rewrite length_map; lia].
Qed.

End presets.

(** "Ultra-safe" on the default portfolio, in binary64. *)
Lemma apply_preset_in_place_witness :
  ∃ d' : DataFrame float,
    apply_preset "Ultra-safe (more FD/G-Secs)" 0 [default_portfolio_data]
      = (inr tt, <[0 := d']> [default_portfolio_data]) ∧
    nrows d' = 5 ∧
    (∀ c, c ≠ ALLOCATION → lookup_column d' c = lookup_column default_portfolio_data c) ∧
    ("Ultra-safe (more FD/G-Secs)" ∉ presets → d' = default_portfolio_data).
Proof.
  exact (apply_preset_in_place (F := float) "Ultra-safe (more FD/G-Secs)"
           [default_portfolio_data] 0 default_portfolio_data eq_refl eq_refl).
Defined.


(** "Income-focused" and then "Default Conservative", on the default
    portfolio. *)
Lemma apply_preset_overrides_witness :
  (apply_preset "Income-focused (more PPF/SCSS)" 0;;
   apply_preset "Default Conservative" 0) [default_portfolio_data (F := float)]
  = apply_preset "Default Conservative" 0 [default_portfolio_data].
Proof.
  apply (apply_preset_overrides (F := float) "Income-focused (more PPF/SCSS)"
           "Default Conservative" [default_portfolio_data] 0 default_portfolio_data).
  - apply list_elem_of_here.
  - reflexivity.
  - reflexivity.
Defined.

(** ** The buttons of the page *)

Section buttons.
Context {F : Type} `{Numeric F}.
Variable parse : string → option F.

Lemma actions_edit new_allocs normalize save session (h : list (DataFrame F)) df
    (d : DataFrame F) :
  h !! df = Some d → nrows d = length new_allocs →
  let edited := set_column d ALLOCATION (map CNum new_allocs) in
  let h1 := <[df := edited]> h in
  holds h1 df edited (map CNum new_allocs) ∧
  actions parse new_allocs normalize save session df h =
    (if normalize then
       df ← normalize_allocations parse df; mret (Rerun df)
     else
       (if save then
          values ← getitem df ALLOCATION;
          setitem_values session ALLOCATION values
        else mret tt);;
       session ← DataFrame_copy df;
       mret (Continue session df)) h1.
Proof.
  intros Hd Hn edited h1.
  destruct (setitem_list_run h df d new_allocs Hd Hn) as [Hset Hh1].
  split; [done|]. unfold actions.
  unfold mbind at 1. unfold M_bind at 1. rewrite Hset. fold edited. fold h1.
  unfold mbind at 1. unfold M_bind at 1.
  rewrite (sum_allocations_run parse h1 df edited _ Hh1).
  unfold mbind at 1. unfold M_bind at 1.
  by rewrite (is_allocation_ok_run parse h1 df edited _ _ Hh1).
Qed.


End buttons.


(** ** The session, pass after pass *)

Section session.
Context {F : Type} `{Numeric F}.
Variable parse : string → option F.
Variable to_float : cell F → exn + F.
Variables pie_chart bar_chart : DataFrame F → exn + unit.
Variable repr : F → string.

Lemma row_getitem_pure (d : DataFrame F) i c :
  ∃ r, ∀ h, row_getitem d i c h = (r, h).
Proof.
  unfold row_getitem. destruct (lookup_column d c); by eexists.
Qed.


(** The loop reads the frame and asks the widgets: it leaves the store
    alone, and returns one value per row. *)
Lemma table_rows_pure w (d : DataFrame F) index :
  ∃ r, (∀ h, table_rows to_float w d index h = (r, h)) ∧
       (∀ l, r = inr l → length l = length index).
Proof.
  induction index as [|i index (r' & Hrest & Hlen)].
  { exists (inr []). split; [done|]. by intros l [= <-]. }
  cbn [table_rows].
  destruct (row_getitem_pure d i "Asset") as [r1 H1].
  destruct (row_getitem_pure d i "Reward") as [r2 H2].
  destruct (row_getitem_pure d i "Time of Investment") as [r3 H3].
  destruct (row_getitem_pure d i ALLOCATION) as [r4 H4].
  destruct (row_getitem_pure d i "Source") as [r5 H5].
  destruct (row_getitem_pure d i "Reasons") as [r6 H6].
  unfold mbind, M_bind, result, mret, M_ret.
  destruct r1 as [e|?]; [exists (inl e); split; [intros h; by rewrite H1|done]|].
  destruct r2 as [e|?]; [exists (inl e); split; [intros h; by rewrite H1, H2|done]|].
  destruct r3 as [e|?]; [exists (inl e); split; [intros h; by rewrite H1, H2, H3|done]|].
  destruct r4 as [e|x]; [exists (inl e); split; [intros h; by rewrite H1, H2, H3, H4|done]|].
  destruct (to_float x) as [e|current] eqn:Hx;
    [exists (inl e); split; [intros h; by rewrite H1, H2, H3, H4, Hx|done]|].
  destruct (number_input w ("alloc_" +:+ pretty i) current) as [e|value] eqn:Hv;
    [exists (inl e); split; [intros h; by rewrite H1, H2, H3, H4, Hx, Hv|done]|].
  destruct r5 as [e|?];
    [exists (inl e); split; [intros h; by rewrite H1, H2, H3, H4, Hx, Hv, H5|done]|].
  destruct (show_reasons w).
  - destruct r6 as [e|?];
      [exists (inl e); split; [intros h; by rewrite H1, H2, H3, H4, Hx, Hv, H5, H6|done]|].
    destruct r' as [e|l'].
    + exists (inl e). split; [|done].
      intros h. by rewrite H1, H2, H3, H4, Hx, Hv, H5, H6, Hrest.
    + exists (inr (value :: l')). split.
      * intros h. by rewrite H1, H2, H3, H4, Hx, Hv, H5, H6, Hrest.
      * intros l [= <-]. cbn. f_equal. by apply Hlen.
  - destruct r' as [e|l'].
    + exists (inl e). split; [|done].
      intros h. by rewrite H1, H2, H3, H4, Hx, Hv, H5, Hrest.
    + exists (inr (value :: l')). split.
      * intros h. by rewrite H1, H2, H3, H4, Hx, Hv, H5, Hrest.
      * intros l [= <-]. cbn. f_equal. by apply Hlen.
Qed.

Lemma table_pure w (h : list (DataFrame F)) df (d : DataFrame F) :
  h !! df = Some d →
  ∃ r, table to_float w df h = (r, h) ∧ (∀ l, r = inr l → length l = nrows d).
Proof.
  intros Hd. destruct (table_rows_pure w d (seq 0 (nrows d))) as (r & Hr & Hlen).
  exists r. split.
  - unfold table, deref, mbind, M_bind. by rewrite Hd, Hr.
  - intros l Hl. by rewrite (Hlen l Hl), length_seq.
Qed.

Lemma shares_of_length (X N : list F) : shares_of X = inr N → length N = length X.
Proof.
  unfold shares_of. cbv zeta. destruct (feqb (Series_sum X) zero).
  - destruct X as [|x X]; [done|]. intros [= <-]. cbn. by rewrite length_replicate.
  - intros [= <-]. by rewrite length_map.
Qed.

Lemma absorb_residue_length (R out : list F) :
  absorb_residue R = inr out → length out = length R.
Proof.
  unfold absorb_residue. cbv zeta. destruct (fltb tol9 _); [|by intros [= <-]].
  destruct (residue_target R) as [e|i]; [done|].
  destruct (R !! i); [|done]. intros [= <-]. by rewrite length_insert.
Qed.

Lemma normalized_column_length (col : list (cell F)) (out : list F) :
  normalized_column parse col = inr out → length out = length col.
Proof.
  unfold normalized_column. destruct (shares_of (weights parse col)) as [e|N] eqn:HN; [done|].
  intros Hout%absorb_residue_length. apply shares_of_length in HN.
  unfold Series_round in Hout. by rewrite Hout, length_map, HN, weights_length.
Qed.

(** What the buttons under the table leave: the session refers to the frame
    it referred to, untouched (an exception in "Normalize"), or to a new
    frame, the working copy with one allocation per row. *)
Lemma actions_session new_allocs normalize save session (h : list (DataFrame F)) df
    (d ds : DataFrame F) r h' :
  h !! df = Some d → h !! session = Some ds → session ≠ df →
  nrows d = length new_allocs → nrows ds = length new_allocs →
  actions parse new_allocs normalize save session df h = (r, h') →
  ((∃ e, r = inl e ∧ normalize = true ∧
         normalized_column parse (map CNum new_allocs) = inl e) ∧
   h' !! session = Some ds) ∨
  (∃ p v, r = inr p ∧ session_after session r = length h ∧
          h' !! length h = Some (set_column d ALLOCATION v) ∧
          length v = length new_allocs ∧
          (∀ s1 df1, p = Continue s1 df1 →
             df1 = df ∧ h' !! df = Some (set_column d ALLOCATION v))).
Proof.
  intros Hd Hs Hne Hn Hns.
  destruct (actions_edit parse new_allocs normalize save session h df d Hd Hn) as [Hh1 ->].
  set (edited := set_column d ALLOCATION (map CNum new_allocs)) in *.
  set (h1 := <[df := edited]> h) in *.
  assert (length h1 = length h) as Hlen1 by apply length_insert.
  assert (h1 !! session = Some ds) as Hs1.
  { unfold h1. by rewrite list_lookup_insert_ne. }
  destruct normalize.
  - unfold mbind, M_bind. rewrite (normalize_allocations_run parse h1 df edited _ Hh1).
    destruct (normalized_column parse (map CNum new_allocs)) as [e|out] eqn:Hout.
    + intros [= <- <-]. left. split; [by exists e|].
      rewrite lookup_app_l; [done|]. by eapply lookup_lt_Some.
    + intros [= <- <-]. right. exists (Rerun (length h1)), (map CNum out).
      split; [done|]. split; [by cbn|]. split; [|split; [|done]].
      * rewrite <- Hlen1, lookup_snoc. unfold edited. by rewrite set_column_twice.
      * apply normalized_column_length in Hout. by rewrite !length_map in *.
  - destruct Hh1 as [Hd1 Hcol1]. intros Hrun. right.
    destruct save.
    + set (h2 := <[session := set_column ds ALLOCATION (map CNum new_allocs)]> h1).
      assert (length h2 = length h) as Hlen2 by (unfold h2; by rewrite length_insert).
      assert (h2 !! df = Some edited) as Hd2.
      { unfold h2. by rewrite list_lookup_insert_ne. }
      unfold getitem, setitem_values, DataFrame_copy, deref, assign, new,
        raise, mret, M_ret, mbind, M_bind in Hrun.
      rewrite Hd1, Hcol1, Hs1 in Hrun.
      rewrite length_map, Hns, Nat.eqb_refl, Hs1 in Hrun.
      fold h2 in Hrun. rewrite Hd2, Hlen2 in Hrun. injection Hrun as <- <-.
      exists (Continue (length h) df), (map CNum new_allocs).
      split; [done|]. split; [done|]. split; [|split; [by rewrite length_map|]].
      * rewrite <- Hlen2. apply lookup_snoc.
      * intros s1 df1 [= <- <-]. split; [done|].
        rewrite lookup_app_l; [done|]. by eapply lookup_lt_Some.
    + unfold DataFrame_copy, deref, new, mret, M_ret, mbind, M_bind in Hrun.
      rewrite Hd1, Hlen1 in Hrun. injection Hrun as <- <-.
      exists (Continue (length h) df), (map CNum new_allocs).
      split; [done|]. split; [done|]. split; [|split; [by rewrite length_map|]].
      * rewrite <- Hlen1. apply lookup_snoc.
      * intros s1 df1 [= <- <-]. split; [done|].
        rewrite lookup_app_l; [done|]. by eapply lookup_lt_Some.
Qed.

Lemma portfolio_nrows (col : list (cell F)) :
  nrows (set_column default_portfolio_data ALLOCATION col) = 5.
Proof. reflexivity. Qed.

Lemma portfolio_default (h : list (DataFrame F)) s :
  h !! s = Some default_portfolio_data → portfolio h s.
Proof.
  intros Hs.
  exists [CNum (of_nat 30); CNum (of_nat 20); CNum (of_nat 20); CNum (of_nat 20);
          CNum (of_nat 10)].
  split; [by rewrite Hs|done].
Qed.

(** One pass keeps the session a portfolio, however it ends. *)
Lemma page_portfolio w (h : list (DataFrame F)) s r h' :
  portfolio h s → page parse to_float w s h = (r, h') →
  portfolio h' (session_after s r).
Proof.
  intros (col & Hs & Hcol). set (d0 := set_column default_portfolio_data ALLOCATION col) in *.
  assert (nrows d0 = 5) as Hrows by reflexivity.
  assert (s < length h) as Hlt by (by eapply lookup_lt_Some).
  assert ((h ++ [d0]) !! s = Some d0) as Hs1 by (by rewrite lookup_app_l).
  assert ((h ++ [d0]) !! length h = Some d0) as Hdf by apply lookup_snoc.
  unfold page, DataFrame_copy, deref, new, mbind, M_bind. rewrite Hs.
  destruct (reset_button w).
  { unfold default_portfolio_df, new, mret, M_ret. intros [= <- <-]. cbn [session_after].
    apply portfolio_default. apply lookup_snoc. }
  destruct (preset_button w).
  { destruct (apply_preset_cases (F := F) (preset w) s) as [(_ & v & Hv & ->)|[_ ->]].
    - rewrite (setitem_list_ok (h ++ [d0]) s d0) by (done || lia).
      unfold mret, M_ret. intros [= <- <-]. cbn [session_after].
      exists (map CNum v). split; [|by rewrite length_map].
      rewrite list_lookup_insert_eq by (rewrite length_app; lia).
      reflexivity.
    - unfold mret, M_ret. intros [= <- <-]. cbn [session_after]. by exists col. }
  destruct (table_pure w (h ++ [d0]) (length h) d0 Hdf) as (t & -> & Hlen).
  destruct t as [e|new_allocs].
  { intros [= <- <-]. cbn [session_after]. by exists col. }
  specialize (Hlen _ eq_refl).
  intros Hrun.
  destruct (actions_session new_allocs (normalize_button w) (save_button w) s
              (h ++ [d0]) (length h) d0 d0 r h')
    as [[(e & -> & _) Hkeep]|(s' & v & -> & Hafter & Hnew & Hv & _)];
    [done|done|lia|lia|lia|done| |].
  - cbn [session_after]. by exists col.
  - rewrite Hafter. exists v. split; [|lia].
    rewrite length_app in Hnew. cbn in Hnew. rewrite length_app. cbn.
    rewrite Hnew. reflexivity.
Qed.

Lemma charts_and_export_keeps (h : list (DataFrame F)) df l (d : DataFrame F) :
  h !! l = Some d →
  (charts_and_export parse pie_chart bar_chart repr df h).2 !! l = Some d.
Proof.
  intros Hl. assert (l < length h) as Hlt by (by eapply lookup_lt_Some).
  assert (∀ x : DataFrame F, (h ++ [x]) !! l = Some d) as Hold.
  { intros x. by rewrite lookup_app_l. }
  unfold charts_and_export, DataFrame_copy, getitem, setitem_series, df_to_csv_bytes,
    deref, new, assign, result, raise, mret, M_ret, mbind, M_bind.
  destruct (h !! df) as [d1|]; [|done]. cbv beta iota.
  rewrite lookup_snoc. cbv beta iota.
  destruct (lookup_column d1 ALLOCATION) as [col|]; [|apply Hold]. cbv beta iota.
  rewrite lookup_snoc. cbv beta iota. rewrite lookup_snoc. cbv beta iota.
  rewrite insert_app_r_alt, Nat.sub_diag by lia. cbn [insert list_insert].
  rewrite lookup_snoc. cbv beta iota.
  set (chart := set_column d1 ALLOCATION (map CNum (fillna zero (to_numeric parse col)))).
  assert (∀ r : exn + unit,
            (let (s, h') := (r, h ++ [chart]) in
             match s with
             | inl e => (inl e, h')
             | inr _ =>
                 match bar_chart chart with
                 | inl e => (inl e, h')
                 | inr _ =>
                     let (s0, h'0) :=
                       match h' !! df with
                       | Some d0 => (inr d0, h')
                       | None => (inl DanglingReference, h')
                       end in
                     match s0 with
                     | inl e => (inl e, h'0)
                     | inr a => (inr (encode_utf8 (to_csv repr a)), h'0)
                     end
                 end
             end).2 !! l = Some d) as Hrest.
  { intros [e|[]]; cbv beta iota; [apply Hold|].
    destruct (bar_chart chart) as [e|[]]; [apply Hold|].
    destruct ((h ++ [chart]) !! df); apply Hold. }
  destruct (fltb zero _); cbv beta iota.
  - apply (Hrest (pie_chart chart)).
  - apply (Hrest (inr tt)).
Qed.

Lemma visit_portfolio w (state : nat * list (DataFrame F)) :
  portfolio state.2 state.1 →
  portfolio (visit parse to_float pie_chart bar_chart repr w state).2
            (visit parse to_float pie_chart bar_chart repr w state).1.
Proof.
  destruct state as [s h]. cbn [fst snd]. intros Hport. unfold visit. cbn [fst snd].
  destruct (page parse to_float w s h) as [r h1] eqn:Hpage.
  pose proof (page_portfolio w h s r h1 Hport Hpage) as Hafter.
  destruct r as [e|[s1|s1 df1]]; [done|done|]. cbn [fst snd session_after] in *.
  destruct Hafter as (col & Hs1 & Hcol). exists col. split; [|done].
  by apply charts_and_export_keeps.
Qed.

(** The session is a portfolio: in every state a session reaches, by
    passes that return, rerun or raise, whatever the widgets and the library
    calls return, the frame the session refers to is the default portfolio
    with five allocations of its own: the columns Asset, Risk, Reward, Time
    of Investment, Source and Reasons are those of [default_portfolio_df],
    in their places, and there are five rows. *)
Theorem session_is_a_portfolio (state : nat * list (DataFrame F)) :
  reachable parse to_float pie_chart bar_chart repr state → portfolio state.2 state.1.
Proof.
  induction 1 as [w h0 s h Hnew|w state _ IH].
  - apply visit_portfolio. cbn [fst snd].
    unfold default_portfolio_df, new in Hnew. injection Hnew as <- <-.
    apply portfolio_default. apply lookup_snoc.
  - by apply visit_portfolio.
Qed.

(** *** No exception of the script's own *)



(** *** The download *)



End session.

(** The first pass of a visitor who touches nothing, and the pass after
    it in which "Normalize" is pressed, in exact arithmetic. *)
Lemma session_is_a_portfolio_witness :
  let state :=
    visit (F := Q) no_strings number_or_zero drawn drawn integral_repr pressing_normalize
      (visit no_strings number_or_zero drawn drawn integral_repr untouched
         (0, [default_portfolio_data])) in
  portfolio state.2 state.1.
Proof.
  apply (session_is_a_portfolio (F := Q) no_strings number_or_zero drawn drawn integral_repr).
  apply next_pass. by apply (first_pass _ _ _ _ _ untouched []).
Defined.



(** ** The export loses nothing *)

Lemma encode_utf8_inj (s t : string) : encode_utf8 s = encode_utf8 t → s = t.
Proof.
  unfold encode_utf8. intros Hst.
  rewrite <- (String.string_of_list_byte_of_string s),
          <- (String.string_of_list_byte_of_string t). by rewrite Hst.
Qed.

Section export_injective.
Context {F : Type} `{Numeric F}.
Variable repr : F → string.

(** Two frames (each with a column at least) that [df_to_csv_bytes] writes
    to the same bytes have the same column names, the same number of rows
    and, row by row, the same texts in their cells: commas, quotes and line
    breaks inside a cell or a name are never mistaken for separators. *)
Theorem df_to_csv_bytes_injective h1 df1 (d1 : DataFrame F) h2 df2 (d2 : DataFrame F) bytes :
  h1 !! df1 = Some d1 → h2 !! df2 = Some d2 → d1 ≠ [] → d2 ≠ [] →
  df_to_csv_bytes repr df1 h1 = (inr bytes, h1) →
  df_to_csv_bytes repr df2 h2 = (inr bytes, h2) →
  map fst d1 = map fst d2 ∧ nrows d1 = nrows d2 ∧
  ∀ i, i < nrows d1 → row_cells repr d1 i = row_cells repr d2 i.
Proof.
  intros Hd1 Hd2 Hne1 Hne2 Hrun1 Hrun2.
  unfold df_to_csv_bytes, deref, mbind, M_bind, mret, M_ret in Hrun1, Hrun2.
  rewrite Hd1 in Hrun1. rewrite Hd2 in Hrun2.
  assert (to_csv repr d1 = to_csv repr d2) as Htext.
  { apply encode_utf8_inj. congruence. }
  pose proof (to_csv_read repr d1 Hne1) as Hread1.
  pose proof (to_csv_read repr d2 Hne2) as Hread2.
  rewrite Htext, Hread2 in Hread1. injection Hread1 as Hnames Hrows.
  assert (nrows d1 = nrows d2) as Hn.
  { apply (f_equal length) in Hrows. by rewrite !length_map, !length_seq in Hrows. }
  split; [done|]. split; [done|]. intros i Hi.
  apply (f_equal (.!! i)) in Hrows.
  rewrite !list_lookup_fmap, !lookup_seq_lt in Hrows by lia.
  by injection Hrows.
Qed.

End export_injective.

(** A number and the text it is written as are the same on export. *)
Lemma df_to_csv_bytes_injective_witness :
  let d1 : DataFrame Q := [(ALLOCATION, [CNum 30%Q])] in
  let d2 : DataFrame Q := [(ALLOCATION, [CStr "30.0"])] in
  map fst d1 = map fst d2 ∧ nrows d1 = nrows d2 ∧
  ∀ i, i < nrows d1 → row_cells integral_repr d1 i = row_cells integral_repr d2 i.
Proof.
  apply (df_to_csv_bytes_injective integral_repr
           [[(ALLOCATION, [CNum 30%Q])]] 0 [(ALLOCATION, [CNum 30%Q])]
           [[(ALLOCATION, [CStr "30.0"])]] 0 [(ALLOCATION, [CStr "30.0"])]
           (encode_utf8 (to_csv integral_repr [(ALLOCATION, [CNum 30%Q])])));
    [reflexivity|reflexivity|discriminate|discriminate|reflexivity|reflexivity].
Defined.

(** ** More about the normalizer and the check, in exact arithmetic *)

Local Open Scope Q_scope.

Lemma Series_sum_snoc (l : list Q) (x : Q) :
  Series_sum (l ++ [x]) = Qred (Series_sum l + x).
Proof. unfold Series_sum. by rewrite fold_left_app. Qed.

Lemma Series_sum_value (l : list Q) (s : Q) :
  l ≠ [] → Qsum l == s → Series_sum l = Qred s.
Proof.
  intros Hl Hs. destruct l as [|x l _] using rev_ind; [done|].
  rewrite Series_sum_snoc. apply Qred_complete.
  rewrite <- Hs, <- Series_sum_exact, Series_sum_snoc. by rewrite Qred_correct.
Qed.

(** A frame whose allocations are numbers summing to 100 passes the check. *)
Lemma sum_100_is_ok parse h df d (out : list Q) tol :
  holds h df d (map CNum out) → out ≠ [] → Qsum out == 100 → 0 <= tol →
  sum_allocations parse df h = (inr 100, h) ∧
  is_allocation_ok parse df tol h = (inr true, h).
Proof.
  intros Hh Hout Hsum Htol.
  assert (Series_sum (weights parse (map CNum out)) = 100) as Hs.
  { rewrite weights_CNum. by rewrite (Series_sum_value out 100). }
  split.
  - by rewrite (sum_allocations_run parse _ _ _ _ Hh), Hs.
  - rewrite (is_allocation_ok_run parse _ _ _ _ _ Hh), Hs.
    do 2 f_equal. by apply Qle_bool_iff.
Qed.

(** What "Normalize" returns passes the check: on the frame returned for a
    non-empty column, [sum_allocations] is exactly 100 and
    [is_allocation_ok] is true, for the default tolerance as for any other
    that is not negative. *)
Theorem normalized_portfolio_is_ok parse h df d col tol :
  holds h df d col → col ≠ [] → 0 <= tol →
  ∃ r h', normalize_allocations parse df h = (inr r, h') ∧
          sum_allocations parse r h' = (inr 100, h') ∧
          is_allocation_ok parse r tol h' = (inr true, h').
Proof.
  intros Hh Hcol Htol.
  destruct (returns_exact parse h df d col Hh Hcol)
    as (N & out & _ & _ & Hret & Hlen & _ & Hsum).
  set (d1 := set_column d ALLOCATION (map CNum out)).
  assert (holds (h ++ [d1]) (length h) d1 (map CNum out)) as Hh1.
  { split; [apply lookup_snoc|apply lookup_set_column]. }
  assert (out ≠ []) as Hout by (intros ->; by destruct col).
  exists (length h), (h ++ [d1]). split; [exact Hret|].
  by apply (sum_100_is_ok parse _ _ d1 out).
Qed.

(** At the weights 10, 10, 10, with the default tolerance. *)
Lemma normalized_portfolio_is_ok_witness :
  ∃ r h', normalize_allocations no_strings 0 [frame_of tens] = (inr r, h') ∧
          sum_allocations no_strings r h' = (inr 100, h') ∧
          is_allocation_ok no_strings r tol6 h' = (inr true, h').
Proof.
  apply (normalized_portfolio_is_ok no_strings [frame_of tens] 0 (frame_of tens)
           (map CNum tens) tol6).
  - split; reflexivity.
  - discriminate.
  - apply Qle_bool_iff. reflexivity.
Defined.

(** Every value [normalize_allocations] returns has at most two decimals,
    the one that absorbed the residue included. *)
Theorem normalize_allocations_two_decimals parse h df d col :
  holds h df d col → col ≠ [] →
  ∃ out, returns parse h df d out ∧ Forall two_decimal out.
Proof.
  intros Hh Hcol.
  destruct (returns_exact parse h df d col Hh Hcol) as (N & out & _ & _ & Hret & _ & H2 & _).
  by exists out.
Qed.

Lemma normalize_allocations_two_decimals_witness :
  ∃ out, returns no_strings [frame_of tens] 0 (frame_of tens) out ∧ Forall two_decimal out.
Proof.
  apply (normalize_allocations_two_decimals no_strings [frame_of tens] 0 (frame_of tens)
           (map CNum tens)).
  - split; reflexivity.
  - discriminate.
Defined.

(** *** Only the proportions matter *)

Lemma Qsum_scale k (W W' : list Q) :
  Forall2 (fun w w' => w' == k * w) W W' → Qsum W' == k * Qsum W.
Proof.
  induction 1 as [|w w' W W' Hw _ IH]; [cbn; ring|].
  rewrite !Qsum_cons, Hw, IH. ring.
Qed.

Lemma shares_of_scale k (W W' : list Q) :
  ¬ k == 0 → Forall2 (fun w w' => w' == k * w) W W' → shares_of W' = shares_of W.
Proof.
  intros Hk HW. pose proof (Qsum_scale _ _ _ HW) as Hsum.
  pose proof (Forall2_length _ _ _ HW) as Hlen.
  unfold shares_of. cbv zeta.
  destruct (feqb (Series_sum W) zero) eqn:Hz.
  - apply feqb_zero in Hz. rewrite Series_sum_exact in Hz.
    assert (feqb (Series_sum W') zero = true) as ->.
    { apply feqb_zero. rewrite Series_sum_exact, Hsum, Hz. ring. }
    by rewrite Hlen.
  - assert (¬ Qsum W == 0) as Hnz.
    { intros Hc. rewrite <- Series_sum_exact in Hc. apply feqb_zero in Hc. congruence. }
    assert (feqb (Series_sum W') zero = false) as ->.
    { apply not_true_is_false. intros Hc. apply feqb_zero in Hc.
      rewrite Series_sum_exact, Hsum in Hc. apply Hnz.
      apply Qmult_integral in Hc as [Hc|Hc]; [by destruct Hk|done]. }
    f_equal.
    assert (Series_sum W' == k * Series_sum W) as HT by (by rewrite !Series_sum_exact).
    assert (¬ Series_sum W == 0) as HT0 by (by rewrite Series_sum_exact).
    revert HT HT0. generalize (Series_sum W') (Series_sum W). intros T' T HT HT0.
    clear Hsum Hlen Hz Hnz.
    induction HW as [|w w' X X' Hw _ IH]; [done|].
    cbn [map]. f_equal; [|by apply IH].
    cbn [mul div hundred exact]. apply Qred_complete.
    rewrite !Qred_correct, HT, Hw. field. by split.
Qed.

(** Multiplying every weight by the same number, other than zero, does not
    change what [normalize_allocations] returns. *)
Theorem normalize_allocations_scale parse k h df d col h' df' d' col' :
  holds h df d col → holds h' df' d' col' → col ≠ [] → ¬ k == 0 →
  Forall2 (fun w w' => w' == k * w) (weights parse col) (weights parse col') →
  ∃ out, returns parse h df d out ∧ returns parse h' df' d' out.
Proof.
  intros Hh Hh' Hcol Hk HW.
  destruct (returns_exact parse h df d col Hh Hcol) as (N & out & HN & Habs & Hret & _).
  exists out. split; [done|]. unfold returns.
  rewrite (normalize_allocations_run parse h' df' d' col' Hh').
  unfold normalized_column. by rewrite (shares_of_scale k _ _ Hk HW), HN, Series_round_2, Habs.
Qed.

(** 10, 10, 10 and 20, 20, 20. *)
Lemma normalize_allocations_scale_witness :
  ∃ out, returns no_strings [frame_of tens] 0 (frame_of tens) out ∧
         returns no_strings [frame_of [20; 20; 20]] 0 (frame_of [20; 20; 20]) out.
Proof.
  apply (normalize_allocations_scale no_strings 2 [frame_of tens] 0 (frame_of tens)
           (map CNum tens) [frame_of [20; 20; 20]] 0 (frame_of [20; 20; 20])
           (map CNum [20; 20; 20])).
  - split; reflexivity.
  - split; reflexivity.
  - discriminate.
  - intros Hc. discriminate Hc.
  - repeat constructor.
Defined.

(** *** How far an output is from the exact share *)

Lemma Qsum_round2_ge (N : list Q) :
  Qsum N - inject_Z (Z.of_nat (length N)) * (1 # 200) <= Qsum (map round2 N).
Proof.
  induction N as [|x N IH].
  - change (0 - 0 * (1 # 200) <= 0). lra.
  - cbn [map length]. rewrite !Qsum_cons, Nat2Z.inj_succ. unfold Z.succ.
    rewrite inject_Z_plus. change (inject_Z 1) with 1.
    pose proof (round2_close x) as [Hx _]%Qabs_Qle_condition. lra.
Qed.

(** For weights whose sum is not zero, every output but one is within 0.005
    of the exact share (weight / sum) * 100, and the remaining one, which
    absorbs the residue, within 0.005 * (count + 1). *)
Theorem normalize_allocations_accuracy parse h df d col :
  holds h df d col → col ≠ [] → ¬ Qsum (weights parse col) == 0 →
  ∃ out i, returns parse h df d out ∧
    ∀ j w y, weights parse col !! j = Some w → out !! j = Some y →
      let share := w / Qsum (weights parse col) * 100 in
      Qabs (y - share) <= (inject_Z (Z.of_nat (length col)) + 1) * (1 # 200) ∧
      (j ≠ i → Qabs (y - share) <= 1 # 200).
Proof.
  intros Hh Hcol Hnz.
  destruct (returns_exact parse h df d col Hh Hcol)
    as (N & out & HN & Habs & Hret & Hlen & _ & Hout).
  assert (weights parse col ≠ []) as HX by (intros Hc; by apply weights_nil in Hc).
  destruct (shares_of_exact _ HX) as (N' & HN' & HlenN & HsumN & _ & _ & Hpoint).
  assert (N' = N) as -> by congruence.
  specialize (Hpoint Hnz). rewrite weights_length in HlenN.
  assert (map round2 N ≠ []) as HR.
  { intros Hc. rewrite Hc in Habs. done. }
  assert (0 <= inject_Z (Z.of_nat (length col))) as Hn.
  { change 0 with (inject_Z 0). rewrite <- Zle_Qle. lia. }
  assert (Hround : ∀ j w r, weights parse col !! j = Some w → map round2 N !! j = Some r →
            Qabs (r - w / Qsum (weights parse col) * 100) <= 1 # 200).
  { intros j w r Hw Hr.
    destruct (Forall2_lookup_l _ _ _ _ _ Hpoint Hw) as (x & Hx & Hwx).
    rewrite list_lookup_fmap, Hx in Hr. injection Hr as <-.
    rewrite <- Hwx. apply round2_close. }
  destruct (absorb_residue_exact _ HR) as (out' & Hout' & Hcases).
  assert (out' = out) as -> by congruence.
  destruct Hcases as [[_ ->]|(_ & i & x & y & Hix & Hy & _ & _ & _ & ->)].
  - exists (map round2 N), 0%nat. split; [done|]. intros j w r Hw Hr. cbv zeta.
    pose proof (Hround j w r Hw Hr). split; [lra|done].
  - exists (<[i := y]> (map round2 N)), i. split; [done|]. intros j w r Hw Hr. cbv zeta.
    destruct (decide (j = i)) as [->|Hji].
    + rewrite list_lookup_insert_eq in Hr by (by eapply lookup_lt_Some).
      injection Hr as <-. split; [|done].
      pose proof (Hround i w x Hw Hix) as Hx.
      pose proof (Qsum_round2_le N) as Hup. pose proof (Qsum_round2_ge N) as Hlo.
      rewrite HlenN, HsumN in Hup, Hlo.
      apply Qabs_Qle_condition in Hx as [Hx1 Hx2]. apply Qabs_Qle_condition.
      rewrite Hy. split; lra.
    + rewrite list_lookup_insert_ne in Hr by done.
      pose proof (Hround j w r Hw Hr). split; [lra|done].
Qed.

Lemma normalize_allocations_accuracy_witness :
  ∃ out i, returns no_strings [frame_of tens] 0 (frame_of tens) out ∧
    ∀ j w y, weights no_strings (map CNum tens) !! j = Some w → out !! j = Some y →
      let share := w / Qsum (weights no_strings (map CNum tens)) * 100 in
      Qabs (y - share) <= (inject_Z (Z.of_nat (length (map CNum tens))) + 1) * (1 # 200) ∧
      (j ≠ i → Qabs (y - share) <= 1 # 200).
Proof.
  apply (normalize_allocations_accuracy no_strings [frame_of tens] 0 (frame_of tens)
           (map CNum tens)).
  - split; reflexivity.
  - discriminate.
  - intros Hc. discriminate Hc.
Defined.

(** *** The range of the outputs *)

Lemma Qsum_ge_entry (l : list Q) j x :
  Forall (Qle 0) l → l !! j = Some x → x <= Qsum l.
Proof.
  intros Hl. revert j.
  induction Hl as [|a l Ha Hl IH]; intros [|j] Hj; cbn in Hj; simplify_eq;
    rewrite Qsum_cons.
  - pose proof (Qsum_nonneg _ Hl). lra.
  - specialize (IH _ Hj). lra.
Qed.

Lemma round2_le_100 x : x <= 100 → round2 x <= 100.
Proof.
  intros Hx. destruct (Q_rint_spec (x * 100)) as (k & Hk & Hclose).
  rewrite round2_value, Hk. apply Qabs_Qle_condition in Hclose as [_ Hhi].
  assert (k < 10001)%Z as Hk1.
  { rewrite Zlt_Qlt. change (inject_Z 10001) with 10001. lra. }
  assert (inject_Z k <= 10000) as Hk2.
  { change 10000 with (inject_Z 10000). rewrite <- Zle_Qle. lia. }
  apply Qle_shift_div_r; lra.
Qed.

(** For non-negative weights, however many, no output exceeds 100. *)
Theorem normalize_allocations_at_most_100 parse h df d col :
  holds h df d col → col ≠ [] → Forall (Qle 0) (weights parse col) →
  ∃ out, returns parse h df d out ∧ Forall (fun y => y <= 100) out.
Proof.
  intros Hh Hcol Hpos.
  destruct (returns_exact parse h df d col Hh Hcol)
    as (N & out & HN & Habs & Hret & Hlen & _ & Hout).
  exists out. split; [done|].
  assert (weights parse col ≠ []) as HX by (intros Hc; by apply weights_nil in Hc).
  destruct (shares_of_exact _ HX) as (N' & HN' & _ & HsumN & HposN & _).
  assert (N' = N) as -> by congruence.
  specialize (HposN Hpos).
  pose proof (Forall_round2_nonneg _ HposN) as HposR.
  assert (Forall (fun r => r <= 100) (map round2 N)) as HR100.
  { apply Forall_fmap, Forall_lookup. intros j x Hj. unfold compose.
    apply round2_le_100. rewrite <- HsumN. by eapply Qsum_ge_entry. }
  assert (map round2 N ≠ []) as HR.
  { intros Hc. rewrite Hc in Habs. done. }
  destruct (absorb_residue_exact _ HR) as (out' & Hout' & Hcases).
  assert (out' = out) as -> by congruence.
  destruct Hcases as [[_ ->]|(_ & i & x & y & Hix & Hy & _ & _ & _ & ->)]; [done|].
  apply Forall_insert; [done|]. rewrite Hy.
  pose proof (Qsum_ge_entry _ _ _ HposR Hix). lra.
Qed.

Lemma normalize_allocations_at_most_100_witness :
  ∃ out, returns no_strings [frame_of many_equal] 0 (frame_of many_equal) out ∧
         Forall (fun y => y <= 100) out.
Proof.
  apply (normalize_allocations_at_most_100 no_strings [frame_of many_equal] 0
           (frame_of many_equal) (map CNum many_equal)).
  - split; reflexivity.
  - discriminate.
  - apply nonneg_check. by vm_compute.
Defined.

(** A portfolio of one row is normalized to 100, whatever its entry: a
    number of either sign, zero, or something that is no number. *)
Theorem normalize_allocations_single parse h df d c :
  holds h df d [c] → returns parse h df d [100].
Proof.
  intros Hh. unfold returns. rewrite (normalize_allocations_run parse h df d [c] Hh).
  assert (normalized_column parse [c] = inr [100]) as ->; [|done].
  unfold normalized_column.
  assert (∃ w, weights parse [c] = [w]) as [w ->] by (by eexists).
  assert (shares_of [w] = inr [100]) as ->; [|reflexivity].
  unfold shares_of. cbv zeta.
  destruct (feqb (Series_sum [w]) zero) eqn:Hz; [reflexivity|].
  assert (¬ Series_sum [w] == 0) as Hnz.
  { intros Hc. apply feqb_zero in Hc. congruence. }
  cbn [map]. do 2 f_equal.
  cbn [mul div hundred exact]. change 100 with (Qred 100) at 2. apply Qred_complete.
  rewrite !Qred_correct.
  assert (Series_sum [w] == w) as Hw by (rewrite Series_sum_exact; cbn; ring).
  rewrite Hw in *. field. done.
Qed.

(** A single row holding the text "n/a". *)
Lemma normalize_allocations_single_witness :
  returns no_strings [[(ALLOCATION, [CStr "n/a"])]] 0 [(ALLOCATION, [CStr "n/a"])] [100].
Proof.
  apply (normalize_allocations_single no_strings _ _ _ (CStr "n/a")).
  split; reflexivity.
Defined.

(** *** The tolerance of the check *)



Lemma two_decimal_below_cent x : two_decimal x → Qabs x < 1 # 100 → x == 0.
Proof.
  intros [k Hk] Hsmall. rewrite Hk in *.
  assert (-1 < k < 1)%Z as Hk1.
  { rewrite !Zlt_Qlt. change (inject_Z (-1)) with (-(1)). change (inject_Z 1) with 1.
    assert (inject_Z k == inject_Z k / 100 * 100) as Hq by field.
    destruct (Qlt_le_dec (inject_Z k / 100) 0) as [Hneg|Hpos].
    - rewrite Qabs_neg in Hsmall by lra. split; lra.
    - rewrite Qabs_pos in Hsmall by lra. split; lra. }
  assert (k = 0)%Z as -> by lia. reflexivity.
Qed.

(** A column of weights with at most two decimals that passes the check,
    with the default tolerance or any other below 0.01, sums to 100 exactly
    and is returned unchanged by [normalize_allocations]. *)
Theorem accepted_two_decimals_unchanged parse h df d col tol :
  holds h df d col → Forall two_decimal (weights parse col) → tol < 1 # 100 →
  is_allocation_ok parse df tol h = (inr true, h) →
  Qsum (weights parse col) == 100 ∧ unchanged parse h df d col.
Proof.
  intros Hh H2 Htol Hok.
  rewrite (is_allocation_ok_run parse h df d col tol Hh) in Hok.
  injection Hok as Hok. cbn [fleb fabs sub hundred exact] in Hok.
  apply Qle_bool_iff in Hok. rewrite Qred_correct, Series_sum_exact in Hok.
  assert (Qsum (weights parse col) == 100) as Hsum.
  { assert (Qsum (weights parse col) - 100 == 0) as Hz; [|lra].
    apply two_decimal_below_cent; [|lra].
    apply two_decimal_minus; [by apply Qsum_two_decimal|apply two_decimal_100]. }
  split; [done|].
  assert (col ≠ []) as Hcol.
  { intros ->. by cbn in Hsum. }
  destruct (normalized_column_fixed parse col Hcol H2 Hsum) as (out & Hout & Heq & _).
  exists out. split; [|done]. unfold returns.
  by rewrite (normalize_allocations_run parse h df d col Hh), Hout.
Qed.

(** 40, 15, 10, 25, 10, the "Ultra-safe" preset. *)
Lemma accepted_two_decimals_unchanged_witness :
  Qsum (weights no_strings (map CNum [40; 15; 10; 25; 10])) == 100 ∧
  unchanged no_strings [frame_of [40; 15; 10; 25; 10]] 0 (frame_of [40; 15; 10; 25; 10])
    (map CNum [40; 15; 10; 25; 10]).
Proof.
  apply (accepted_two_decimals_unchanged no_strings [frame_of [40; 15; 10; 25; 10]] 0
           (frame_of [40; 15; 10; 25; 10]) (map CNum [40; 15; 10; 25; 10]) tol6).
  - split; reflexivity.
  - repeat constructor; [by exists 4000%Z|by exists 1500%Z|by exists 1000%Z
                        |by exists 2500%Z|by exists 1000%Z].
  - reflexivity.
  - reflexivity.
Defined.

(** *** The order of the weights *)

Lemma Q_rint_mono q q' : q <= q' → Q_rint q <= Q_rint q'.
Proof.
  intros Hq.
  destruct (Q_rint_spec q) as (k & Hk & [Hk1 Hk2]%Qabs_Qle_condition).
  destruct (Q_rint_spec q') as (k' & Hk' & [Hk'1 Hk'2]%Qabs_Qle_condition).
  destruct (Z_le_gt_dec k k') as [Hle|Hgt].
  { rewrite Hk, Hk'. by rewrite <- Zle_Qle. }
  assert (inject_Z k' + 1 <= inject_Z k) as Hstep.
  { change 1 with (inject_Z 1). rewrite <- inject_Z_plus, <- Zle_Qle. lia. }
  assert (q == q') as Heq by lra.
  rewrite (Q_rint_proper q q' Heq). lra.
Qed.

Lemma round2_mono x x' : x <= x' → round2 x <= round2 x'.
Proof.
  intros Hx. rewrite !round2_value.
  apply Qle_shift_div_l; [lra|].
  assert (Q_rint (x * 100) / 100 * 100 == Q_rint (x * 100)) as -> by field.
  apply Q_rint_mono. lra.
Qed.

(** For weights with a positive sum, the outputs are in the order of the
    weights, the entry that absorbs the residue left aside: of two other
    entries, the one with the smaller weight never gets the larger output. *)
Theorem normalize_allocations_keeps_order parse h df d col :
  holds h df d col → col ≠ [] → 0 < Qsum (weights parse col) →
  ∃ out i, returns parse h df d out ∧
    ∀ j k w w' y y', j ≠ i → k ≠ i →
      weights parse col !! j = Some w → weights parse col !! k = Some w' →
      out !! j = Some y → out !! k = Some y' →
      w <= w' → y <= y'.
Proof.
  intros Hh Hcol Htotal.
  destruct (returns_exact parse h df d col Hh Hcol)
    as (N & out & HN & Habs & Hret & Hlen & _ & Hout).
  assert (weights parse col ≠ []) as HX by (intros Hc; by apply weights_nil in Hc).
  destruct (shares_of_exact _ HX) as (N' & HN' & _ & _ & _ & _ & Hpoint).
  assert (N' = N) as -> by congruence.
  assert (¬ Qsum (weights parse col) == 0) as Hnz by lra.
  specialize (Hpoint Hnz).
  assert (Hround : ∀ j k w w' r r',
            weights parse col !! j = Some w → weights parse col !! k = Some w' →
            map round2 N !! j = Some r → map round2 N !! k = Some r' →
            w <= w' → r <= r').
  { intros j k w w' r r' Hw Hw' Hr Hr' Hle.
    destruct (Forall2_lookup_l _ _ _ _ _ Hpoint Hw) as (x & Hx & Hwx).
    destruct (Forall2_lookup_l _ _ _ _ _ Hpoint Hw') as (x' & Hx' & Hwx').
    rewrite list_lookup_fmap, Hx in Hr. rewrite list_lookup_fmap, Hx' in Hr'.
    injection Hr as <-. injection Hr' as <-.
    apply round2_mono. rewrite Hwx, Hwx'.
    apply Qmult_le_compat_r; [|lra].
    apply Qle_shift_div_l; [done|].
    assert (w / Qsum (weights parse col) * Qsum (weights parse col) == w) as -> by (by field).
    done. }
  assert (map round2 N ≠ []) as HR.
  { intros Hc. rewrite Hc in Habs. done. }
  destruct (absorb_residue_exact _ HR) as (out' & Hout' & Hcases).
  assert (out' = out) as -> by congruence.
  destruct Hcases as [[_ ->]|(_ & i & x & y & Hix & Hy & _ & _ & _ & ->)].
  - exists (map round2 N), 0%nat. split; [done|].
    intros j k w w' r r' _ _. apply Hround.
  - exists (<[i := y]> (map round2 N)), i. split; [done|].
    intros j k w w' r r' Hj Hk Hw Hw' Hr Hr'.
    rewrite list_lookup_insert_ne in Hr by done.
    rewrite list_lookup_insert_ne in Hr' by done.
    by eapply Hround.
Qed.

Lemma normalize_allocations_keeps_order_witness :
  ∃ out i, returns no_strings [frame_of short_weights] 0 (frame_of short_weights) out ∧
    ∀ j k w w' y y', j ≠ i → k ≠ i →
      weights no_strings (map CNum short_weights) !! j = Some w →
      weights no_strings (map CNum short_weights) !! k = Some w' →
      out !! j = Some y → out !! k = Some y' →
      w <= w' → y <= y'.
Proof.
  apply (normalize_allocations_keeps_order no_strings [frame_of short_weights] 0
           (frame_of short_weights) (map CNum short_weights)).
  - split; reflexivity.
  - discriminate.
  - reflexivity.
Defined.

(** *** The "Normalize" button *)


